(** * DocGen backend: repository acquisition and token-bounded chunking

    A shallow embedding of the JavaScript backend of DocGen:

    - [src/backend/server.js]: the worker-thread version
      ([countTokens], the worker's [fetchDirContents], the coordinating
      [fetchAllRepoContents], the line-based [chunkSourceCode] and
      [callOpenAIWithRetry]);
    - [src/unnamed/part_002]: the fused fetch-and-chunk version
      ([countTokens] with its tokenizer fallback and the recursive
      [fetchAllRepoContents]).

    JavaScript strings are modelled by [string]: a sequence of code units
    whose [length] is the JavaScript [.length].  Numbers that the code only
    uses as integers are in [Z].  Exceptions are the [Throw] case of
    [result]; the console, the calls to the generation service and the
    waits are the [world] that is threaded through the monad [M].

    The remote repository is a finite tree of listing entries, each with
    the answer of the remote to the request that the code makes for it.
    The worker threads of server.js reach the main thread through events:
    the sequence of events is an argument of the coordinator. *)

From Stdlib Require Import String Ascii List ZArith Lia Bool Permutation.
From Stdlib Require Import DecimalString.
Import ListNotations.

#[local] Set Warnings "-register-all".

Open Scope string_scope.
Open Scope Z_scope.

(** ** JavaScript strings and numbers *)

Module JS.

(** The line feed, written [\n] in the source. *)
Definition LF : ascii := "010"%char.
Definition nl : string := String LF "".

(** [s.length] *)
Definition strlen (s : string) : Z := Z.of_nat (String.length s).

(** Truthiness of a string: only [''] is falsy. *)
Definition truthy (s : string) : bool :=
  match s with
  | "" => false
  | String _ _ => true
  end.

(** [Math.ceil(a / b)] for an integer [a] and a positive integer [b]: the
    quotient is exact in double precision for the lengths that occur, and
    the ceiling of a rational is minus the floor of its opposite. *)
Definition Math_ceil_div (a b : Z) : Z := - ((- a) / b).

(** [s.split(sep)] for a one-character separator. *)
Fixpoint split (sep : ascii) (s : string) : list string :=
  match s with
  | "" => [""]
  | String c s' =>
      if Ascii.eqb c sep then "" :: split sep s'
      else match split sep s' with
           | [] => [String c ""]
           | l :: ls => String c l :: ls
           end
  end.

(** [arr.join(sep)] *)
Fixpoint join (sep : string) (arr : list string) : string :=
  match arr with
  | [] => ""
  | [x] => x
  | x :: rest => x ++ sep ++ join sep rest
  end.

(** [s.endsWith(suffix)] *)
Definition endsWith (s suffix : string) : bool :=
  let n := String.length s in
  let k := String.length suffix in
  if (k <=? n)%nat then String.eqb (substring (n - k) k s) suffix else false.

(** [arr.some(p)] *)
Definition some {A : Type} (p : A -> bool) (arr : list A) : bool := existsb p arr.

(** The decimal rendering of an integer inside a template literal. *)
Definition showZ (n : Z) : string := NilEmpty.string_of_int (Z.to_int n).

(** A string of [n] copies of one character (used for test inputs). *)
Fixpoint replicate (n : nat) (c : ascii) : string :=
  match n with
  | O => ""
  | S k => String c (replicate k c)
  end.

End JS.

Import JS.

(** ** Exceptions, the outside world and the effect monad *)

(** A thrown JavaScript error, as far as the code looks at it: its
    [message], and the HTTP status of [error.response] when the error has a
    [response] property ([None] when it has none). *)
Record js_error : Type := mkError {
  message : string;
  response_status : option Z
}.

Inductive result (A : Type) : Type :=
| Ok (a : A)
| Throw (e : js_error).
Arguments Ok {A} a.
Arguments Throw {A} e.

Inductive level : Type := LLog | LWarn | LError.

(** What the code does to the outside: the lines written to the console,
    the number of calls made to [openai.chat.completions.create], and the
    waits (in ms) passed to [setTimeout], oldest first. *)
Record world : Type := mkWorld {
  console : list (level * string);
  api_calls : nat;
  slept : list Z
}.

Definition initial_world : world := mkWorld [] 0 [].

(** A computation that acts on the outside world and may throw. *)
Definition M (A : Type) : Type := world -> result A * world.

Definition ret {A} (a : A) : M A := fun w => (Ok a, w).

Definition bind {A B} (m : M A) (k : A -> M B) : M B :=
  fun w => match m w with
           | (Ok a, w') => k a w'
           | (Throw e, w') => (Throw e, w')
           end.

Definition throw {A} (e : js_error) : M A := fun w => (Throw e, w).

(** [await] of a request whose outcome is known. *)
Definition await {A} (r : result A) : M A := fun w => (r, w).

(** [try { body } catch (error) { handler }] *)
Definition try_catch {A} (body : M A) (handler : js_error -> M A) : M A :=
  fun w => match body w with
           | (Ok a, w') => (Ok a, w')
           | (Throw error, w') => handler error w'
           end.

Definition console_write (l : level) (s : string) : M unit :=
  fun w => (Ok tt, mkWorld (console w ++ [(l, s)])%list (api_calls w) (slept w)).

Definition console_log : string -> M unit := console_write LLog.
Definition console_warn : string -> M unit := console_write LWarn.
Definition console_error : string -> M unit := console_write LError.

(** [await new Promise(resolve => setTimeout(resolve, waitTime))] *)
Definition sleep (waitTime : Z) : M unit :=
  fun w => (Ok tt, mkWorld (console w) (api_calls w) (slept w ++ [waitTime])%list).

Declare Scope M_scope.
Delimit Scope M_scope with M.
Notation "x <- m ;; k" := (bind m (fun x => k))
  (at level 61, m at next level, right associativity) : M_scope.
Notation "m ;;; k" := (bind m (fun _ => k))
  (at level 61, right associativity) : M_scope.
Open Scope M_scope.

(** ** The remote repository *)

(** One entry of a directory listing of the contents API, together with what
    the remote answers when the entry is asked for: for a file, [download]
    is [None] when [download_url] is missing and otherwise the outcome of
    the GET of that URL; for a directory, [listing] is the outcome of the
    GET of the contents of [item.path]. *)
Inductive node : Type :=
| FileNode (path : string) (download : option (result string))
| DirNode (path : string) (listing : result (list node))
| OtherNode (type : string) (path : string).

Definition node_path (item : node) : string :=
  match item with
  | FileNode p _ => p
  | DirNode p _ => p
  | OtherNode _ p => p
  end.

(** [item.type === 'dir'] *)
Definition is_dir (item : node) : bool :=
  match item with
  | DirNode _ _ => true
  | _ => false
  end.

Definition default_extensions : list string := [".js"; ".py"; ".ts"; ".md"].

(** [extensions.some(ext => item.path.endsWith(ext))] *)
Definition has_extension (extensions : list string) (path : string) : bool :=
  some (fun ext => endsWith path ext) extensions.

(** The per-file size ceiling. *)
Definition size_ceiling : Z := 500000.

(** The formatted block of a file: header line, then the raw text. *)
Definition fileText (path fileContent : string) : string :=
  nl ++ "=== File: " ++ path ++ " ===" ++ nl ++ fileContent.

(** A retrieved source file. *)
Record FileRecord : Type := mkFileRecord {
  path : string;
  content : string
}.

Definition block (r : FileRecord) : string := fileText (path r) (content r).

(** The Tree Walker as the specification words it: the files below an entry
    that have an accepted extension, a download location and at most
    [size_ceiling] characters, in listing order and depth first. *)
Fixpoint walk (extensions : list string) (item : node) : list FileRecord :=
  match item with
  | FileNode p (Some (Ok c)) =>
      if has_extension extensions p && (strlen c <=? size_ceiling)
      then [mkFileRecord p c] else []
  | FileNode _ _ => []
  | DirNode _ (Ok items) => flat_map (walk extensions) items
  | DirNode _ (Throw _) => []
  | OtherNode _ _ => []
  end.

Definition walk_all (extensions : list string) (items : list node) : list FileRecord :=
  flat_map (walk extensions) items.

(** ** The generation client (the same text in server.js and part_002) *)

Definition is_rate_limit (error : js_error) : bool :=
  match response_status error with
  | Some status => status =? 429
  | None => false
  end.

Definition max_retries_error : js_error :=
  mkError "Max retries reached for OpenAI API call" None.

(** [openai.chat.completions.create]: the remote service is a function of
    the prompt and of the number of calls made before this one. *)
Definition service : Type := string -> nat -> result string.

(** What the API answers to one call of the client, once the client has
    given up its own attempts: a completion, an HTTP error status with the
    text of the error, or nothing (the connection fails). *)
Inductive api_answer : Type :=
| Completion (content : string)
| HttpError (status : Z) (text : string)
| NoAnswer (text : string).

(** The [openai] client (the object built by [new OpenAI(...)]) on top of
    the API: an HTTP error is thrown as an error object that carries
    [status] and [message], and that has no [response] property; neither
    has the error of a failed connection. *)
Definition openai_client (api : string -> nat -> api_answer) : service :=
  fun prompt n =>
    match api prompt n with
    | Completion content => Ok content
    | HttpError _ text => Throw (mkError text None)
    | NoAnswer text => Throw (mkError text None)
    end.

Definition create (openai : service) (prompt : string) : M string :=
  fun w => (openai prompt (api_calls w),
            mkWorld (console w) (S (api_calls w)) (slept w)).

(** The [for] loop of [callOpenAIWithRetry]: [remaining] is the number of
    values of [attempt] still below [retries].  The body of the [try]
    returns the response; the [catch] either sleeps and lets the loop go on
    ([None]) or throws the error again. *)
Fixpoint retry_loop (openai : service) (prompt : string) (retries delay : Z)
    (remaining : nat) (attempt : Z) : M string :=
  match remaining with
  | O => throw max_retries_error
  | S remaining' =>
      returned <-
        try_catch
          (response <- create openai prompt ;; ret (Some response))
          (fun error =>
             if is_rate_limit error then
               let waitTime := delay * 2 ^ attempt in
               console_log ("Rate limit hit, retrying in " ++ showZ waitTime
                            ++ "ms... (Attempt " ++ showZ (attempt + 1) ++ "/"
                            ++ showZ retries ++ ")") ;;;
               sleep waitTime ;;;
               ret None
             else throw error) ;;
      match returned with
      | Some response => ret response
      | None => retry_loop openai prompt retries delay remaining' (attempt + 1)
      end
  end.

Definition callOpenAIWithRetry (openai : service) (prompt : string)
    (retries delay : Z) : M string :=
  retry_loop openai prompt retries delay (Z.to_nat retries) 0.

Definition default_retries : Z := 3.
Definition default_delay : Z := 1000.

(** The prompt of the chunk of index [i] among [total] chunks. *)
Definition prompt_of (total : nat) (i : nat) (chunk : string) : string :=
  "Generate Sphinx-compatible RST for this source code chunk (part "
  ++ showZ (Z.of_nat i + 1) ++ "/" ++ showZ (Z.of_nat total) ++ "):"
  ++ nl ++ nl ++ chunk.

(** ** server.js *)

Module Server.

(** [countTokens]: 1 token is about 4 characters. *)
Definition countTokens (text : string) : Z := Math_ceil_div (strlen text) 4.

(** *** The worker thread *)

(** The [for (const item of items)] loop of the worker's [fetchDirContents]. *)
Fixpoint worker_items (workerPath : string) (extensions : list string)
    (items : list node) (contents : list string) : M (list string) :=
  match items with
  | [] => ret contents
  | item :: rest =>
      match item with
      | FileNode p (Some get) =>
          if has_extension extensions p then
            fileContent <- await get ;;
            if strlen fileContent >? size_ceiling then
              console_warn ("Worker " ++ workerPath ++ ": Skipping large file: " ++ p
                            ++ " (" ++ showZ (strlen fileContent) ++ " chars)") ;;;
              worker_items workerPath extensions rest contents
            else
              worker_items workerPath extensions rest
                (contents ++ [fileText p fileContent])%list
          else worker_items workerPath extensions rest contents
      | _ => worker_items workerPath extensions rest contents
      end
  end.

(** The [while (true)] loop over the pages of the listing.  [pages] holds
    the answers of the remote to page 1, 2, ... of the worker's directory;
    past the end of [pages] the remote answers with an empty page, which is
    what ends the loop in the source. *)
Fixpoint worker_pages (workerPath : string) (extensions : list string)
    (pages : list (result (list node))) (contents : list string) : M (list string) :=
  match pages with
  | [] => ret contents
  | response :: later =>
      items <- await response ;;
      match items with
      | [] => ret contents
      | _ :: _ =>
          contents' <- worker_items workerPath extensions items contents ;;
          worker_pages workerPath extensions later contents'
      end
  end.

(** [fetchDirContents], as a function: the value is the string that its
    last line passes to [parentPort.postMessage] when the function runs to
    its end. *)
Definition fetchDirContents (workerPath : string) (extensions : list string)
    (pages : list (result (list node))) : M string :=
  contents <- worker_pages workerPath extensions pages [] ;;
  ret (join nl contents).

(** The data of a [message] event: what [parentPort.postMessage] is given,
    a string or an object with an [error]. *)
Inductive message_data : Type :=
| DataString (data : string)
| DataError (error : string).

(** *** The main thread *)

(** The write stream on the output file. *)
Record stream : Type := mkStream {
  written : string;
  ended : bool;
  write_after_end : bool
}.

Definition stream_write (data : string) (s : stream) : stream :=
  if ended s then mkStream (written s) true true
  else mkStream (written s ++ data) false (write_after_end s).

Definition stream_end (s : stream) : stream :=
  mkStream (written s) true (write_after_end s).

(** The loop that writes the root-level files directly. *)
Fixpoint root_items (extensions : list string) (rootItems : list node)
    (writeStream : stream) : M stream :=
  match rootItems with
  | [] => ret writeStream
  | item :: rest =>
      match item with
      | FileNode p (Some get) =>
          if has_extension extensions p then
            fileContent <- await get ;;
            if strlen fileContent >? size_ceiling then
              console_warn ("Main: Skipping large file: " ++ p
                            ++ " (" ++ showZ (strlen fileContent) ++ " chars)") ;;;
              root_items extensions rest writeStream
            else
              root_items extensions rest (stream_write (fileText p fileContent) writeStream)
          else root_items extensions rest writeStream
      | _ => root_items extensions rest writeStream
      end
  end.

(** The events that the workers raise on the main thread; [worker] is the
    index in [directories] of the worker that raises the event. *)
Inductive worker_event : Type :=
| OnMessage (worker : nat) (data : message_data)
| OnExit (worker : nat)
| OnError (worker : nat) (err : js_error).


(** The variables shared by the event handlers. *)
Record coordinator : Type := mkCoordinator {
  sink : stream;
  completedWorkers : nat;
  resolved : list nat;
  rejected : option js_error
}.

Definition handle (directories : list node) (workerCount : nat)
    (st : coordinator) (ev : worker_event) : M coordinator :=
  match ev with
  | OnMessage i data =>
      match nth_error directories i with
      | None => ret st
      | Some dir =>
          match data with
          | DataString s =>
              ret (mkCoordinator (stream_write s (sink st))
                     (completedWorkers st) (resolved st) (rejected st))
          | DataError error =>
              if truthy error then
                console_error ("Worker error for " ++ node_path dir ++ ": " ++ error) ;;;
                ret st
              else ret st
          end
      end
  | OnExit i =>
      match nth_error directories i with
      | None => ret st
      | Some _ =>
          let completed := S (completedWorkers st) in
          ret (mkCoordinator
                 (if (completed =? workerCount)%nat
                  then stream_end (sink st) else sink st)
                 completed (i :: resolved st) (rejected st))
      end
  | OnError i err =>
      match nth_error directories i with
      | None => ret st
      | Some _ =>
          ret (mkCoordinator (sink st) (completedWorkers st) (resolved st)
                 (match rejected st with Some e => Some e | None => Some err end))
      end
  end.

Fixpoint handle_all (directories : list node) (workerCount : nat)
    (events : list worker_event) (st : coordinator) : M coordinator :=
  match events with
  | [] => ret st
  | ev :: later =>
      st' <- handle directories workerCount st ev ;;
      handle_all directories workerCount later st'
  end.

(** How the call of [fetchAllRepoContents] ends when it does not throw: it
    returns and the output file is complete, or an awaited promise never
    settles, or the stream was written after its end. *)
Inductive completion : Type :=
| Finished (file : string)
| Pending
| StreamError.

Definition all_resolved (workerCount : nat) (resolved : list nat) : bool :=
  forallb (fun i => existsb (Nat.eqb i) resolved) (seq 0 workerCount).

(** [await new Promise(resolve => writeStream.on('finish', resolve))] on the
    line that follows [await Promise.all(workers)].  The stream emits
    [finish] once, after its [end()].  Here [end()] was called by the exit
    handler of the last worker, in an earlier turn of the event loop than
    the one that adds the listener: the event has gone by, the listener is
    never called and the promise never settles. *)
Definition late_finish_listener (writeStream : stream) : completion := Pending.

(** [fetchAllRepoContents]: [rootResponse] is the answer to the listing of
    the root, [events] the events raised by the workers, in the order in
    which the main thread handles them.  Without a directory at the root,
    [end()] and the listener of [finish] are in the same turn, and the call
    returns.  With directories, [await Promise.all(workers)] throws the
    first rejection, stays pending while a worker has not exited, and
    otherwise leads to the late listener. *)
Definition fetchAllRepoContents (extensions : list string)
    (rootResponse : result (list node)) (events : list worker_event) : M completion :=
  rootItems <- await rootResponse ;;
  writeStream <- root_items extensions rootItems (mkStream "" false false) ;;
  let directories := filter is_dir rootItems in
  let workerCount := List.length directories in
  if (workerCount =? 0)%nat then ret (Finished (written (stream_end writeStream)))
  else
    st <- handle_all directories workerCount events
            (mkCoordinator writeStream 0 [] None) ;;
    match rejected st with
    | Some err => throw err
    | None =>
        if write_after_end (sink st) then ret StreamError
        else if all_resolved workerCount (resolved st)
        then ret (late_finish_listener (sink st))
        else ret Pending
    end.

(** *** The chunker *)

(** The body of the [for (const line of lines)] loop of [chunkSourceCode],
    with the two variables it assigns. *)
Fixpoint chunk_loop (maxTokens : Z) (lines : list string)
    (chunks : list string) (currentChunk : string) : list string * string :=
  match lines with
  | [] => (chunks, currentChunk)
  | line :: rest =>
      let lineTokens := countTokens line in
      let currentChunkTokens := countTokens currentChunk in
      if currentChunkTokens + lineTokens >? maxTokens
      then chunk_loop maxTokens rest (chunks ++ [currentChunk])%list line
      else chunk_loop maxTokens rest chunks
             (currentChunk ++ (if truthy currentChunk then nl else "") ++ line)
  end.

Definition chunkSourceCode (sourceCode : string) (maxTokens : Z) : list string :=
  let lines := split LF sourceCode in
  let '(chunks, currentChunk) := chunk_loop maxTokens lines [] "" in
  if truthy currentChunk then (chunks ++ [currentChunk])%list else chunks.

Definition default_maxTokens : Z := 10000.

(** Step 4 of the request handler: one prompt per chunk, sent one after the
    other; the first failure aborts the rest. *)
Fixpoint generate_from (openai : service) (total i : nat) (chunks rstParts : list string)
    : M (list string) :=
  match chunks with
  | [] => ret rstParts
  | chunk :: rest =>
      console_log ("Processing chunk " ++ showZ (Z.of_nat i + 1) ++ "/"
                   ++ showZ (Z.of_nat total) ++ ", tokens: "
                   ++ showZ (countTokens chunk)) ;;;
      gptResponse <- callOpenAIWithRetry openai (prompt_of total i chunk)
                       default_retries default_delay ;;
      generate_from openai total (S i) rest (rstParts ++ [gptResponse])%list
  end.

Definition generate_all (openai : service) (sourceCodeChunks : list string) : M (list string) :=
  generate_from openai (List.length sourceCodeChunks) 0 sourceCodeChunks [].

(** Steps 2 to 4 of the request handler: the file is read back, chunked,
    and every chunk is sent to the generation client.  [None] is the
    answer 400, no relevant source code found. *)
Definition generate_docs (openai : service) (sourceCode : string) : M (option (list string)) :=
  if negb (truthy sourceCode) then ret None
  else
    console_log ("Source code size: " ++ showZ (strlen sourceCode) ++ " characters") ;;;
    let sourceCodeChunks := chunkSourceCode sourceCode default_maxTokens in
    console_log ("Generated " ++ showZ (Z.of_nat (List.length sourceCodeChunks))
                 ++ " chunks") ;;;
    rstParts <- generate_all openai sourceCodeChunks ;;
    ret (Some rstParts).

End Server.

(** ** part_002: fetch and chunk in one pass *)

Module Fused.

(** The tokenizer object, when its construction succeeded. *)
Record Tiktoken : Type := mkTiktoken {
  encode : string -> result (list Z)
}.

(** [countTokens] with its fallback: the [try] returns the count of the
    tokenizer when there is one; when there is none, or when [encode]
    throws (the [catch] writes the error to the console), the function goes
    on to the estimate of 4 characters per token. *)
Definition countTokens (tiktoken : option Tiktoken) (text : string) : M Z :=
  returned <-
    try_catch
      (match tiktoken with
       | Some tk =>
           tokens <- await (encode tk text) ;;
           ret (Some (Z.of_nat (List.length tokens)))
       | None => ret None
       end)
      (fun error =>
         console_error ("Tiktoken error: " ++ message error) ;;;
         ret None) ;;
  match returned with
  | Some count => ret count
  | None => ret (Math_ceil_div (strlen text) 4)
  end.

Definition budget : Z := 25000.

(** The accumulator of the walker: [chunks] and [currentChunk]. *)
Definition acc : Type := (list string * string)%type.

(** The test that both branches of the loop make on a new piece of text. *)
Definition add_piece (tiktoken : option Tiktoken) (piece : string) (st : acc) : M acc :=
  let '(chunks, currentChunk) := st in
  tokens <- countTokens tiktoken (currentChunk ++ piece) ;;
  if tokens >? budget then ret ((chunks ++ [currentChunk])%list, piece)
  else ret (chunks, currentChunk ++ piece).

(** [for (const dirChunk of dirChunks)] *)
Fixpoint add_pieces (tiktoken : option Tiktoken) (pieces : list string) (st : acc) : M acc :=
  match pieces with
  | [] => ret st
  | piece :: rest =>
      st' <- add_piece tiktoken piece st ;;
      add_pieces tiktoken rest st'
  end.

(** [if (currentChunk) chunks.push(currentChunk); return chunks] *)
Definition flush (st : acc) : list string :=
  let '(chunks, currentChunk) := st in
  if truthy currentChunk then (chunks ++ [currentChunk])%list else chunks.

(** One turn of the [for (const item of response.data)] loop; a directory
    entry runs the whole function again on its own listing. *)
Fixpoint visit (tiktoken : option Tiktoken) (extensions : list string)
    (item : node) (st : acc) {struct item} : M acc :=
  match item with
  | FileNode p (Some get) =>
      if has_extension extensions p then
        fileContent <- await get ;;
        if strlen fileContent >? size_ceiling then
          console_warn ("Skipping large file: " ++ p
                        ++ " (" ++ showZ (strlen fileContent) ++ " chars)") ;;;
          ret st
        else add_piece tiktoken (fileText p fileContent) st
      else ret st
  | FileNode _ None => ret st
  | DirNode _ listing =>
      dirChunks <-
        match listing with
        | Throw err => throw err
        | Ok items =>
            st' <- (fix loop (items : list node) (s : acc) {struct items} : M acc :=
                      match items with
                      | [] => ret s
                      | it :: rest =>
                          s' <- visit tiktoken extensions it s ;;
                          loop rest s'
                      end) items ([], "") ;;
            ret (flush st')
        end ;;
      add_pieces tiktoken dirChunks st
  | OtherNode _ _ => ret st
  end.

Fixpoint visit_all (tiktoken : option Tiktoken) (extensions : list string)
    (items : list node) (st : acc) : M acc :=
  match items with
  | [] => ret st
  | it :: rest =>
      st' <- visit tiktoken extensions it st ;;
      visit_all tiktoken extensions rest st'
  end.

(** [fetchAllRepoContents]: [response] is the answer to the listing of the
    directory the function is called on. *)
Definition fetchAllRepoContents (tiktoken : option Tiktoken) (extensions : list string)
    (response : result (list node)) : M (list string) :=
  items <- await response ;;
  st <- visit_all tiktoken extensions items ([], "") ;;
  ret (flush st).

End Fused.

(** ** server.js: the request handler *)

Module Handler.

(** The longest run of characters other than [/] at the head of a string,
    and what follows it. *)
Fixpoint non_slash_run (s : string) : string * string :=
  match s with
  | "" => ("", "")
  | String c s' =>
      if Ascii.eqb c "/" then ("", s)
      else let '(run, rest) := non_slash_run s' in (String c run, rest)
  end.

(** What follows [p] in [s] when [s] starts with [p]. *)
Fixpoint after_prefix (p s : string) : option string :=
  match p with
  | "" => Some s
  | String a p' =>
      match s with
      | "" => None
      | String b s' => if Ascii.eqb a b then after_prefix p' s' else None
      end
  end.

(** The regular expression [github\.com\/([^\/]+)\/([^\/]+)] matched at
    the head of [s].  Each class run is greedy, and the longest run is
    followed by a [/] or by the end of the string, so that a shorter run
    never matches where the longest does not. *)
Definition match_here (s : string) : option (string * string) :=
  match after_prefix "github.com/" s with
  | None => None
  | Some s1 =>
      let '(repoOwner, s2) := non_slash_run s1 in
      match repoOwner, s2 with
      | String _ _, String _ s3 =>
          let '(repoName, _) := non_slash_run s3 in
          match repoName with
          | "" => None
          | String _ _ => Some (repoOwner, repoName)
          end
      | _, _ => None
      end
  end.

(** [repoUrl.match(...)]: the leftmost match, with its two groups. *)
Fixpoint match_repo_url (repoUrl : string) : option (string * string) :=
  match match_here repoUrl with
  | Some groups => Some groups
  | None =>
      match repoUrl with
      | "" => None
      | String _ rest => match_repo_url rest
      end
  end.

(** What the handler answers; [NoResponse] when the awaited fetch never
    settles or the process stops on a stream error. *)
Inductive response : Type :=
| Status (code : Z) (error : string)
| Json (downloadLink : string)
| NoResponse.

Definition rst_separator : string :=
  nl ++ nl ++ ".. raw:: html" ++ nl ++ nl ++ "   <hr>" ++ nl ++ nl.

(** The [repoUrl] field of the JSON body of the request: absent, a string,
    or a value of another type (null, a number, a boolean, an array or an
    object), of which the handler only tests the truthiness. *)
Inductive body_field : Type :=
| Absent
| Text (s : string)
| NotText (is_truthy : bool).

(** The [TypeError] of [repoUrl.match(...)] when [repoUrl] has no method
    [match]. *)
Definition match_type_error : js_error :=
  mkError "repoUrl.match is not a function" None.

(** [app.post('/generate-docs', ...)].  [github] is the answer of the
    contents API to the listing of the root of a repository; [events] are
    the events of the workers; [publish] stands for steps 5 to 7 (the files
    of the Sphinx project, [sphinx-build] and the copy of the page), which
    give the download link or throw.  The file that step 1 writes is what
    step 2 reads back.  The two tests on [repoUrl] come before the [try]:
    what they throw leaves the handler. *)
Definition generate_docs_handler (repoUrl : body_field)
    (github : string -> string -> result (list node))
    (events : list Server.worker_event) (openai : service)
    (publish : string -> M string) : M response :=
  match repoUrl with
  | Absent => ret (Status 400 "Repository URL is required")
  | NotText false => ret (Status 400 "Repository URL is required")
  | NotText true => throw match_type_error
  | Text url =>
      if negb (truthy url) then ret (Status 400 "Repository URL is required")
      else
        match match_repo_url url with
        | None => ret (Status 400 "Invalid GitHub URL")
        | Some (repoOwner, repoName) =>
            try_catch
              (fetched <- Server.fetchAllRepoContents default_extensions
                            (github repoOwner repoName) events ;;
               match fetched with
               | Server.Finished sourceCode =>
                   generated <- Server.generate_docs openai sourceCode ;;
                   match generated with
                   | None =>
                       ret (Status 400
                              "No relevant source code found (e.g., .js, .py, .ts, .md files)")
                   | Some rstParts =>
                       let sphinxDocs := join rst_separator rstParts in
                       downloadLink <- publish sphinxDocs ;;
                       ret (Json downloadLink)
                   end
               | Server.Pending => ret NoResponse
               | Server.StreamError => ret NoResponse
               end)
              (fun error =>
                 console_error ("Error: " ++ message error) ;;;
                 ret (Status 500 "Failed to generate documentation"))
        end
  end.

End Handler.

(** ** Vocabulary of the properties *)

(** Concatenation of a list of strings, in order. *)
Definition concat_all (l : list string) : string := fold_right append "" l.

(** The text of a group of file records: their formatted blocks, in order. *)
Definition group_text (g : list FileRecord) : string := concat_all (map block g).

(** [s.includes(sub)] *)
Fixpoint includes (s sub : string) : bool :=
  prefix sub s ||
  match s with
  | "" => false
  | String _ s' => includes s' sub
  end.

(** The lines of a text that are not empty, and those of a list of chunks. *)
Definition nonempty_lines (s : string) : list string :=
  filter truthy (split LF s).

Definition chunk_lines (chunks : list string) : list string :=
  filter truthy (flat_map (split LF) chunks).

(** The accumulator of the fused walker holds the records [rs], cut into
    consecutive groups: one group per closed chunk, and one for the current
    chunk. *)
Definition grouped (st : Fused.acc) (rs : list FileRecord) : Prop :=
  exists (gs : list (list FileRecord)) (g : list FileRecord),
    fst st = map group_text gs /\ snd st = group_text g /\ (concat gs ++ g)%list = rs.

(** The value that [countTokens] of part_002 returns. *)
Definition estimate (tiktoken : option Fused.Tiktoken) (text : string) : Z :=
  match tiktoken with
  | Some tk =>
      match Fused.encode tk text with
      | Ok tokens => Z.of_nat (List.length tokens)
      | Throw _ => Math_ceil_div (strlen text) 4
      end
  | None => Math_ceil_div (strlen text) 4
  end.

(** A chunk of the fused walker that respects the budget, [rs] being the
    records of the files that the walk retains: the chunk is within the
    budget, or it is the block of one of these files, or it is empty. *)
Definition budgeted (tiktoken : option Fused.Tiktoken) (rs : list FileRecord)
    (chunk : string) : Prop :=
  chunk = ""
  \/ (exists r, In r rs /\ chunk = block r)
  \/ estimate tiktoken chunk <= Fused.budget.

Definition budgeted_acc (tiktoken : option Fused.Tiktoken) (rs : list FileRecord)
    (st : Fused.acc) : Prop :=
  Forall (budgeted tiktoken rs) (fst st) /\ budgeted tiktoken rs (snd st).

(** An API that answers every call with HTTP 429. *)
Definition rate_limited_api : string -> nat -> api_answer :=
  fun _ _ => HttpError 429 "Rate limit reached for requests".

(** Two root-level files whose blocks hold 6 tokens each. *)
Definition two_small_files : list FileRecord :=
  [mkFileRecord "a.js" "x"; mkFileRecord "bcd.js" "y"].

Definition two_small_items : list node :=
  [FileNode "a.js" (Some (Ok "x")); FileNode "bcd.js" (Some (Ok "y"))].

(** The world after one more line on the console. *)
Definition logged (l : level) (line : string) (w : world) : world :=
  mkWorld (console w ++ [(l, line)])%list (api_calls w) (slept w).

(** The repository of the scenario of the specification: [a.py] (50
    characters) and [b.txt] at the root, and [lib/c.js] (80 characters). *)
Definition scenario_items : list node :=
  [ FileNode "a.py" (Some (Ok (replicate 50 "a")));
    FileNode "b.txt" (Some (Ok "not a source file"));
    DirNode "lib" (Ok [FileNode "lib/c.js" (Some (Ok (replicate 80 "c")))]) ].

(** A corpus of one file of two lines. *)
Definition two_line_file : FileRecord := mkFileRecord "a" ("aaaa" ++ nl ++ "bbbb").

(** A file of 600,000 characters. *)
Definition big_file_content : string := replicate (Z.to_nat 600000) "x".

(** The warnings of the three loops that skip a large file. *)
Definition skip_warning (prefix p fileContent : string) : string :=
  prefix ++ "Skipping large file: " ++ p ++ " (" ++ showZ (strlen fileContent) ++ " chars)".

(** A repository whose only source file is two directories down. *)
Definition nested_listing : list node :=
  [DirNode "lib/sub" (Ok [FileNode "lib/sub/x.js" (Some (Ok "x"))])].

Definition nested_repo : list node := [DirNode "lib" (Ok nested_listing)].




Definition exits (events : list Server.worker_event) : list nat :=
  flat_map (fun ev => match ev with Server.OnExit i => [i] | _ => [] end) events.



(** Three directories at the root, and the events of three workers of
    which the first posts its text, the second an error and the third its
    text, and which end in the order 2, 0, 1. *)
Definition three_dirs : list node :=
  [ FileNode "a.js" (Some (Ok "root"));
    DirNode "d0" (Ok []); DirNode "d1" (Ok []); DirNode "d2" (Ok []) ].


(** A root listing that succeeds, with one file whose download fails. *)
Definition network_error : js_error := mkError "Network Error" None.


(** A file of 100,000 characters: under the size ceiling, and over the
    budget of the fused walker once its header is added. *)
Definition long_file_content : string := replicate (Z.to_nat 100000) "x".

(** *** Vocabulary of the further properties *)

(** The first request that fails when the fused walker goes through an
    entry, in the order of the walk. *)
Fixpoint first_failure (extensions : list string) (item : node) : option js_error :=
  match item with
  | FileNode p (Some (Throw e)) => if has_extension extensions p then Some e else None
  | FileNode _ _ => None
  | DirNode _ (Throw e) => Some e
  | DirNode _ (Ok items) =>
      (fix go (items : list node) : option js_error :=
         match items with
         | [] => None
         | it :: rest =>
             match first_failure extensions it with
             | Some e => Some e
             | None => go rest
             end
         end) items
  | OtherNode _ _ => None
  end.

Fixpoint first_failure_all (extensions : list string) (items : list node)
    : option js_error :=
  match items with
  | [] => None
  | it :: rest =>
      match first_failure extensions it with
      | Some e => Some e
      | None => first_failure_all extensions rest
      end
  end.

(** The files of one listing that a loop without recursion retains, and
    the first download of that listing that fails. *)
Definition direct_records (extensions : list string) (items : list node)
    : list FileRecord :=
  flat_map (fun item => match item with
                        | FileNode _ _ => walk extensions item
                        | _ => []
                        end) items.

Fixpoint direct_failure (extensions : list string) (items : list node)
    : option js_error :=
  match items with
  | [] => None
  | FileNode p (Some (Throw e)) :: rest =>
      if has_extension extensions p then Some e else direct_failure extensions rest
  | _ :: rest => direct_failure extensions rest
  end.

(** The uncaught error of a worker that the main thread sees first. *)
Fixpoint first_error (n : nat) (events : list Server.worker_event) : option js_error :=
  match events with
  | [] => None
  | Server.OnError i err :: later =>
      if (i <? n)%nat then Some err else first_error n later
  | _ :: later => first_error n later
  end.

(** The waits of [k] rate-limited attempts in a row, from attempt 0. *)
Definition backoff (delay : Z) (k : nat) : list Z :=
  map (fun i => delay * 2 ^ Z.of_nat i) (seq 0 k).

(** A service whose first [k] calls throw an error that has a [response]
    of status 429, the shape that the [catch] of [callOpenAIWithRetry]
    looks for, and whose later calls give [final].  (The errors of
    [openai_client] are not of this shape.) *)
Definition limited_then (k : nat) (final : result string) : service :=
  fun _ n => if (n <? k)%nat then Throw (mkError "Too Many Requests" (Some 429))
             else final.

(** A service that answers every call with a text made from its prompt. *)
Definition echo : service := fun prompt _ => Ok ("RST for " ++ prompt).

(** The prompts of a list of chunks, from index [i]. *)
Fixpoint prompts_from (total i : nat) (chunks : list string) : list string :=
  match chunks with
  | [] => []
  | chunk :: rest => prompt_of total i chunk :: prompts_from total (S i) rest
  end.

(** A line of text: a string without line feed. *)
Definition single_line (s : string) : Prop := split LF s = [s].

(** What [generate_all] returns for a service that answers the call number
    [n] for [prompt] with [f prompt n]. *)
Fixpoint answers (f : string -> nat -> string) (total i n : nat) (chunks : list string)
    : list string :=
  match chunks with
  | [] => []
  | chunk :: rest => f (prompt_of total i chunk) n :: answers f total (S i) (S n) rest
  end.

(** A non-empty text within the budget of the fused walker, and an
    accumulator made of such texts. *)
Definition fitting (tiktoken : option Fused.Tiktoken) (text : string) : Prop :=
  text <> "" /\ estimate tiktoken text <= Fused.budget.

Definition fitting_acc (tiktoken : option Fused.Tiktoken) (st : Fused.acc) : Prop :=
  Forall (fitting tiktoken) (fst st) /\ (snd st = "" \/ fitting tiktoken (snd st)).

(** What a visit of the fused walker does: it throws the first failure of
    the walk, or it returns an accumulator. *)
Definition visit_outcome (tiktoken : option Fused.Tiktoken) (extensions : list string)
    (item : node) : Prop :=
  forall st w,
    match first_failure extensions item with
    | Some e => exists w', Fused.visit tiktoken extensions item st w = (Throw e, w')
    | None => exists st' w', Fused.visit tiktoken extensions item st w = (Ok st', w')
    end.

(** Whether a character occurs in a string. *)
Fixpoint has_char (c : ascii) (s : string) : bool :=
  match s with
  | "" => false
  | String x s' => Ascii.eqb x c || has_char c s'
  end.

(** A build step that always gives the same link. *)
Definition publish_ok : string -> M string :=
  fun _ => ret "http://localhost:3000/downloads/docs.html".

(** A build step that succeeds as step 6 does: the output of
    [sphinx-build] is written to the console. *)
Definition publish_logging : string -> M string :=
  fun _ =>
    console_log "Sphinx Output: build succeeded." ;;;
    ret "http://localhost:3000/downloads/docs.html".

(** * Properties *)

(** ** Strings *)

Lemma strlen_nonneg (s : string) : 0 <= strlen s.
Proof. unfold strlen. lia. Qed.

Lemma Math_ceil_div_4_spec (a : Z) :
  4 * (Math_ceil_div a 4 - 1) < a <= 4 * Math_ceil_div a 4.
Proof.
  unfold Math_ceil_div.
  pose proof (Z.div_mod (- a) 4 ltac:(lia)) as Hdm.
  pose proof (Z.mod_pos_bound (- a) 4 ltac:(lia)) as Hb.
  lia.
Qed.

Lemma append_assoc (a b c : string) : (a ++ b) ++ c = a ++ b ++ c.
Proof. induction a as [|x a IH]; simpl; [reflexivity|rewrite IH; reflexivity]. Qed.

Lemma append_nil_r (a : string) : a ++ "" = a.
Proof. induction a as [|x a IH]; simpl; [reflexivity|rewrite IH; reflexivity]. Qed.

Lemma concat_all_app a b : concat_all (a ++ b) = concat_all a ++ concat_all b.
Proof.
  induction a as [|x a IH]; simpl; [reflexivity|].
  rewrite IH, append_assoc. reflexivity.
Qed.

Example split_lines : split LF ("a" ++ nl ++ "b" ++ nl) = ["a"; "b"; ""].
Proof. reflexivity. Qed.

Example split_empty : split LF "" = [""].
Proof. reflexivity. Qed.

Example endsWith_extension :
  endsWith "lib/c.js" ".js" = true /\ endsWith "b.txt" ".js" = false
  /\ has_extension default_extensions "b.txt" = false.
Proof. repeat split. Qed.

Example includes_inside : includes "abcd" "bc" = true /\ includes "abcd" "cb" = false.
Proof. split; reflexivity. Qed.

Lemma split_not_nil sep s : split sep s <> [].
Proof.
  destruct s as [|c s]; simpl; [discriminate|].
  destruct (Ascii.eqb c sep); [discriminate|].
  destruct (split sep s); discriminate.
Qed.

Lemma split_app_sep sep a b :
  split sep (a ++ String sep b) = (split sep a ++ split sep b)%list.
Proof.
  induction a as [|c a IH]; simpl.
  - rewrite Ascii.eqb_refl. reflexivity.
  - destruct (Ascii.eqb c sep).
    + rewrite IH. reflexivity.
    + rewrite IH.
      pose proof (split_not_nil sep a) as Hne.
      destruct (split sep a); [congruence|reflexivity].
Qed.

(** A line of a split text holds no separator: splitting it again gives
    the line itself. *)
Lemma split_line_fixed sep s :
  Forall (fun line => split sep line = [line]) (split sep s).
Proof.
  induction s as [|c s IH]; simpl.
  - constructor; [reflexivity|constructor].
  - destruct (Ascii.eqb c sep) eqn:Hc.
    + constructor; [reflexivity|exact IH].
    + pose proof (split_not_nil sep s) as Hne.
      destruct (split sep s) as [|l ls]; [congruence|].
      inversion IH as [|? ? Hl Hls]; subst.
      constructor; [|exact Hls].
      simpl. rewrite Hc, Hl. reflexivity.
Qed.

(** ** The effect monad *)

Lemma bind_Ok_inv {A B} (m : M A) (k : A -> M B) w b w' :
  bind m k w = (Ok b, w') ->
  exists a w1, m w = (Ok a, w1) /\ k a w1 = (Ok b, w').
Proof.
  unfold bind. destruct (m w) as [[a|e] w1]; intros H.
  - exists a, w1. split; [reflexivity|exact H].
  - discriminate H.
Qed.

Lemma bind_ext {A B} (m m' : M A) (k : A -> M B) w :
  (forall w0, m w0 = m' w0) -> bind m k w = bind m' k w.
Proof. intros H. unfold bind. rewrite H. reflexivity. Qed.

Lemma ret_Ok_inv {A} (a b : A) w w' : ret a w = (Ok b, w') -> a = b /\ w = w'.
Proof. unfold ret. intros H. inversion H. split; reflexivity. Qed.

(** ** The token estimator *)

(** [countTokens] of part_002 returns [estimate] and does not throw. *)
Lemma countTokens_estimate tiktoken text w :
  fst (Fused.countTokens tiktoken text w) = Ok (estimate tiktoken text).
Proof.
  unfold Fused.countTokens, estimate, bind, try_catch, await.
  destruct tiktoken as [tk|]; [|reflexivity].
  destruct (Fused.encode tk text); reflexivity.
Qed.

(** C9. The fallback estimator, [Math.ceil(text.length / 4)], is the least
    integer [n] with [text.length <= 4 * n]; it is non-negative; it is what
    [countTokens] of server.js computes, and what [countTokens] of part_002
    returns when there is no tokenizer or when the tokenizer throws.  With a
    tokenizer that answers, the token count of the tokenizer is returned.
    In no case does [countTokens] throw. *)
Theorem countTokens_fallback (text : string) :
  let n := Server.countTokens text in
  0 <= n
  /\ 4 * (n - 1) < strlen text <= 4 * n
  /\ (forall w, Fused.countTokens None text w = (Ok n, w))
  /\ (forall tk w,
        match Fused.encode tk text with
        | Throw _ => fst (Fused.countTokens (Some tk) text w) = Ok n
        | Ok tokens =>
            fst (Fused.countTokens (Some tk) text w) = Ok (Z.of_nat (List.length tokens))
        end)
  /\ (forall tiktoken w, exists k,
        fst (Fused.countTokens tiktoken text w) = Ok k /\ 0 <= k).
Proof.
  intros n.
  pose proof (Math_ceil_div_4_spec (strlen text)) as Hc.
  pose proof (strlen_nonneg text) as Hl.
  assert (Hn : 0 <= n) by (unfold n, Server.countTokens; lia).
  split; [exact Hn|].
  split; [exact Hc|].
  split; [reflexivity|].
  split.
  - intros tk w. rewrite countTokens_estimate. unfold estimate.
    destruct (Fused.encode tk text); reflexivity.
  - intros tiktoken w. exists (estimate tiktoken text).
    split; [apply countTokens_estimate|].
    unfold estimate. destruct tiktoken as [tk|]; [|exact Hn].
    destruct (Fused.encode tk text); [lia|exact Hn].
Qed.

(** ** The generation client *)

(** An attempt that fails with an error whose [response] has status 429:
    one call, one line on the console, one wait, and the loop goes on with
    the next attempt. *)
Lemma retry_loop_step openai prompt retries delay remaining attempt w e :
  openai prompt (api_calls w) = Throw e -> is_rate_limit e = true ->
  retry_loop openai prompt retries delay (S remaining) attempt w
  = retry_loop openai prompt retries delay remaining (attempt + 1)
      (mkWorld
         (console (logged LLog
                     ("Rate limit hit, retrying in " ++ showZ (delay * 2 ^ attempt)
                      ++ "ms... (Attempt " ++ showZ (attempt + 1) ++ "/"
                      ++ showZ retries ++ ")") w))
         (S (api_calls w))
         (slept w ++ [delay * 2 ^ attempt])%list).
Proof.
  intros He Hrl. cbn [retry_loop].
  unfold bind, try_catch, create. rewrite He, Hrl. reflexivity.
Qed.

(** An attempt that fails with an error without a [response] of status
    429: one call, and the error leaves the loop. *)
Lemma retry_loop_rethrow openai prompt retries delay remaining attempt w e :
  openai prompt (api_calls w) = Throw e -> is_rate_limit e = false ->
  retry_loop openai prompt retries delay (S remaining) attempt w
  = (Throw e, mkWorld (console w) (S (api_calls w)) (slept w)).
Proof.
  intros He Hrl. cbn [retry_loop].
  unfold bind, try_catch, create. rewrite He, Hrl. reflexivity.
Qed.

(** C5. A generation call that the API answers with HTTP 429 is not tried
    again: the error that the client throws has no [response] property, so
    the test of the [catch] fails and [callOpenAIWithRetry] throws that
    error after one call of the client, without any wait and without the
    max-retries error, whatever the (positive) number of retries.  With the
    default parameters and an API that answers every call with 429, there
    is one call instead of three. *)
Theorem rate_limit_is_rethrown :
  (forall api prompt (retries : positive) delay w text,
      api prompt (api_calls w) = HttpError 429 text ->
      callOpenAIWithRetry (openai_client api) prompt (Z.pos retries) delay w
      = (Throw (mkError text None), mkWorld (console w) (S (api_calls w)) (slept w)))
  /\ callOpenAIWithRetry (openai_client rate_limited_api) "p" default_retries
       default_delay initial_world
     = (Throw (mkError "Rate limit reached for requests" None), mkWorld [] 1 [])
  /\ mkError "Rate limit reached for requests" None <> max_retries_error.
Proof.
  split; [|split; [reflexivity|discriminate]].
  intros api prompt retries delay w text Hanswer.
  unfold callOpenAIWithRetry.
  destruct (Z.to_nat (Z.pos retries)) as [|remaining] eqn:Hn; [lia|].
  apply retry_loop_rethrow; [|reflexivity].
  unfold openai_client. rewrite Hanswer. reflexivity.
Qed.

(** ** The line-based chunker of server.js *)

Lemma chunk_lines_app a b : chunk_lines (a ++ b) = (chunk_lines a ++ chunk_lines b)%list.
Proof.
  unfold chunk_lines. rewrite flat_map_app, filter_app. reflexivity.
Qed.

Lemma chunk_lines_one c : chunk_lines [c] = nonempty_lines c.
Proof.
  unfold chunk_lines, nonempty_lines. simpl. rewrite app_nil_r. reflexivity.
Qed.

Lemma nonempty_lines_append_line cur line :
  split LF line = [line] ->
  nonempty_lines (cur ++ (if truthy cur then nl else "") ++ line)
  = (nonempty_lines cur ++ filter truthy [line])%list.
Proof.
  intros Hline. unfold nonempty_lines.
  destruct cur as [|c cur].
  - cbn [truthy append]. rewrite Hline. reflexivity.
  - cbn [truthy]. unfold nl.
    change (String LF "" ++ line) with (String LF line).
    rewrite split_app_sep, filter_app, Hline. reflexivity.
Qed.

(** The loop of [chunkSourceCode] keeps the non-empty lines, in order. *)
Lemma chunk_loop_lines maxTokens lines :
  Forall (fun line => split LF line = [line]) lines ->
  forall chunks currentChunk chunks' currentChunk',
    Server.chunk_loop maxTokens lines chunks currentChunk = (chunks', currentChunk') ->
    (chunk_lines chunks' ++ nonempty_lines currentChunk')%list
    = (chunk_lines chunks ++ nonempty_lines currentChunk ++ filter truthy lines)%list.
Proof.
  induction 1 as [|line rest Hline Hrest IH]; intros chunks cur chunks' cur' Hloop.
  - simpl in Hloop. inversion Hloop; subst. simpl. rewrite app_nil_r. reflexivity.
  - cbn [Server.chunk_loop] in Hloop. cbv zeta in Hloop.
    change (line :: rest) with ([line] ++ rest)%list. rewrite filter_app.
    destruct (Server.countTokens cur + Server.countTokens line >? maxTokens).
    + apply IH in Hloop. rewrite Hloop.
      rewrite chunk_lines_app, chunk_lines_one.
      unfold nonempty_lines at 2. rewrite Hline.
      rewrite <- !app_assoc. reflexivity.
    + apply IH in Hloop. rewrite Hloop.
      rewrite nonempty_lines_append_line by exact Hline.
      rewrite <- !app_assoc. reflexivity.
Qed.

Lemma chunkSourceCode_lines sourceCode maxTokens :
  chunk_lines (Server.chunkSourceCode sourceCode maxTokens) = nonempty_lines sourceCode.
Proof.
  unfold Server.chunkSourceCode.
  destruct (Server.chunk_loop maxTokens (split LF sourceCode) [] "")
    as [chunks cur] eqn:Hloop.
  apply chunk_loop_lines in Hloop; [|apply split_line_fixed].
  simpl in Hloop.
  destruct cur as [|c cur]; cbn [truthy].
  - simpl in Hloop. rewrite app_nil_r in Hloop. exact Hloop.
  - rewrite chunk_lines_app, chunk_lines_one. exact Hloop.
Qed.


(** C10. For a positive budget, [chunkSourceCode] of the empty string is
    the empty list, so that the generation loop over its chunks makes no
    call and leaves the world as it was; the request handler itself answers
    an empty file before any call. *)
Theorem chunkSourceCode_empty_input (maxTokens : Z) :
  0 < maxTokens ->
  Server.chunkSourceCode "" maxTokens = []
  /\ (forall openai w,
        Server.generate_all openai (Server.chunkSourceCode "" maxTokens) w = (Ok [], w))
  /\ (forall openai w, Server.generate_docs openai "" w = (Ok None, w)).
Proof.
  intros Hpos.
  assert (E : Server.chunkSourceCode "" maxTokens = []).
  { unfold Server.chunkSourceCode. cbn [split Server.chunk_loop].
    change (Server.countTokens "") with 0.
    destruct (0 + 0 >? maxTokens) eqn:Hgt.
    - apply Z.gtb_lt in Hgt. lia.
    - reflexivity. }
  split; [exact E|]. split.
  - intros openai w. rewrite E. reflexivity.
  - reflexivity.
Qed.

Lemma chunkSourceCode_empty_input_witness :
  Server.chunkSourceCode "" Server.default_maxTokens = []
  /\ (forall openai w,
        Server.generate_all openai (Server.chunkSourceCode "" Server.default_maxTokens) w
        = (Ok [], w))
  /\ (forall openai w, Server.generate_docs openai "" w = (Ok None, w)).
Proof.
  apply (chunkSourceCode_empty_input Server.default_maxTokens).
  unfold Server.default_maxTokens. lia.
Defined.

(** The scenario of the specification: with a budget of 10 tokens, two
    lines of 8 tokens each go to two chunks. *)
Example two_lines_two_chunks :
  Server.chunkSourceCode (replicate 32 "a" ++ nl ++ replicate 32 "b") 10
  = [replicate 32 "a"; replicate 32 "b"].
Proof. reflexivity. Qed.

(** C4. [chunkSourceCode] returns a chunk over the budget that is not a
    single block over the budget.  The corpus is the file that
    [fetchAllRepoContents] of server.js writes for two root-level files,
    [a.js] and [bcd.js], whose blocks hold 6 tokens each; with a budget of
    10 tokens the first chunk holds the block of [a.js] and the header line
    of [bcd.js], 41 characters, 11 tokens: the loop adds the estimate of
    the chunk so far (5) to that of the line (5), finds 10, and joins them
    with a line feed that it does not count. *)
Theorem chunkSourceCode_chunk_over_budget :
  let corpus := group_text two_small_files in
  let chunk := "=== File: a.js ===" ++ nl ++ "x" ++ nl ++ "=== File: bcd.js ===" in
  Server.fetchAllRepoContents default_extensions (Ok two_small_items) [] initial_world
    = (Ok (Server.Finished corpus), initial_world)
  /\ Server.chunkSourceCode corpus 10 = [chunk; "y"]
  /\ Server.countTokens chunk = 11
  /\ map (fun r => Server.countTokens (block r)) two_small_files = [6; 6]
  /\ Server.countTokens ("=== File: a.js ===" ++ nl ++ "x") = 5
  /\ Server.countTokens "=== File: bcd.js ===" = 5.
Proof.
  repeat split; reflexivity.
Qed.


(** ** The fused walker of part_002 *)

Lemma node_induction (P : node -> Prop) :
  (forall p download, P (FileNode p download)) ->
  (forall p err, P (DirNode p (Throw err))) ->
  (forall p items, Forall P items -> P (DirNode p (Ok items))) ->
  (forall type p, P (OtherNode type p)) ->
  forall item, P item.
Proof.
  intros Hfile Hfail Hdir Hother.
  fix IH 1. intros [p download|p [items|err]|type p].
  - apply Hfile.
  - apply Hdir. induction items as [|it items IHitems]; constructor.
    + apply IH.
    + exact IHitems.
  - apply Hfail.
  - apply Hother.
Qed.

Lemma visit_loop tiktoken extensions items :
  forall s w,
    (fix loop (items : list node) (s : Fused.acc) {struct items} : M Fused.acc :=
       match items with
       | [] => ret s
       | it :: rest => s' <- Fused.visit tiktoken extensions it s ;; loop rest s'
       end) items s w
    = Fused.visit_all tiktoken extensions items s w.
Proof.
  induction items as [|it items IH]; intros s w; [reflexivity|].
  cbn [Fused.visit_all]. unfold bind.
  destruct (Fused.visit tiktoken extensions it s w) as [[s'|err] w1].
  - apply IH.
  - reflexivity.
Qed.

(** A directory entry runs [fetchAllRepoContents] on its listing and adds
    the chunks it returns. *)
Lemma visit_dir tiktoken extensions p listing st w :
  Fused.visit tiktoken extensions (DirNode p listing) st w
  = (dirChunks <- Fused.fetchAllRepoContents tiktoken extensions listing ;;
     Fused.add_pieces tiktoken dirChunks st) w.
Proof.
  unfold Fused.fetchAllRepoContents. cbn [Fused.visit].
  destruct listing as [items|err]; [|reflexivity].
  transitivity
    ((dirChunks <- (st' <- Fused.visit_all tiktoken extensions items ([], "") ;;
                    ret (Fused.flush st')) ;;
      Fused.add_pieces tiktoken dirChunks st) w); [|reflexivity].
  apply bind_ext. intros w0. apply bind_ext. intros w1. apply visit_loop.
Qed.

(** *** Strings of groups of records *)

Lemma group_text_app g1 g2 : group_text (g1 ++ g2) = group_text g1 ++ group_text g2.
Proof. unfold group_text. rewrite map_app. apply concat_all_app. Qed.

Lemma group_text_one r : group_text [r] = block r.
Proof. unfold group_text, concat_all. cbn [map fold_right]. apply append_nil_r. Qed.

Lemma group_text_empty g : group_text g = "" -> g = [].
Proof.
  destruct g as [|r g]; [reflexivity|].
  unfold group_text, block, fileText. simpl. discriminate.
Qed.


(** *** The accumulator stays a grouping of the records walked so far *)

Lemma grouped_start : grouped ([], "") [].
Proof. exists [], []. repeat split. Qed.

Lemma add_piece_grouped tiktoken g' st rs w st' w' :
  grouped st rs ->
  Fused.add_piece tiktoken (group_text g') st w = (Ok st', w') ->
  grouped st' (rs ++ g').
Proof.
  destruct st as [chunks cur]. intros (gs & g & Hchunks & Hcur & Hrs) Hadd.
  simpl in Hchunks, Hcur.
  unfold Fused.add_piece in Hadd.
  apply bind_Ok_inv in Hadd as (tokens & w1 & _ & Hk).
  destruct (tokens >? Fused.budget); apply ret_Ok_inv in Hk as [Hst _]; subst st'.
  - exists (gs ++ [g])%list, g'. simpl. repeat split.
    + rewrite map_app, Hchunks, Hcur. reflexivity.
    + rewrite concat_app. simpl. rewrite app_nil_r, Hrs. reflexivity.
  - exists gs, (g ++ g')%list. simpl. repeat split.
    + exact Hchunks.
    + rewrite group_text_app, Hcur. reflexivity.
    + rewrite app_assoc, Hrs. reflexivity.
Qed.

Lemma add_pieces_grouped tiktoken groups :
  forall st rs w st' w',
    grouped st rs ->
    Fused.add_pieces tiktoken (map group_text groups) st w = (Ok st', w') ->
    grouped st' (rs ++ concat groups).
Proof.
  induction groups as [|g groups IH]; intros st rs w st' w' Hst Hadd.
  - simpl in Hadd. apply ret_Ok_inv in Hadd as [-> _].
    simpl. rewrite app_nil_r. exact Hst.
  - cbn [map Fused.add_pieces] in Hadd.
    apply bind_Ok_inv in Hadd as (st1 & w1 & Hone & Hrest).
    simpl. rewrite app_assoc.
    eapply IH; [|exact Hrest].
    eapply add_piece_grouped; eassumption.
Qed.

Lemma flush_grouped st rs :
  grouped st rs ->
  exists groups, concat groups = rs /\ Fused.flush st = map group_text groups.
Proof.
  destruct st as [chunks cur]. intros (gs & g & Hchunks & Hcur & Hrs).
  simpl in Hchunks, Hcur. unfold Fused.flush.
  destruct cur as [|c cur]; cbn [truthy].
  - symmetry in Hcur. apply group_text_empty in Hcur. subst g.
    exists gs. rewrite app_nil_r in Hrs. split; assumption.
  - exists (gs ++ [g])%list. split.
    + rewrite concat_app. simpl. rewrite app_nil_r. exact Hrs.
    + rewrite map_app, Hchunks, Hcur. reflexivity.
Qed.

Lemma visit_grouped tiktoken extensions item :
  forall st rs w st' w',
    grouped st rs ->
    Fused.visit tiktoken extensions item st w = (Ok st', w') ->
    grouped st' (rs ++ walk extensions item).
Proof.
  induction item as [p download|p err|p items IH|type p] using node_induction;
    intros st rs w st' w' Hst Hvisit.
  - destruct download as [[c|err]|]; cbn [Fused.visit walk] in *.
    + destruct (has_extension extensions p); cbn [andb].
      * apply bind_Ok_inv in Hvisit as (fileContent & w1 & Hget & Hk).
        unfold await in Hget. inversion Hget; subst fileContent w1.
        rewrite Z.gtb_ltb in Hk. rewrite Z.leb_antisym.
        destruct (size_ceiling <? strlen c); cbn [negb].
        -- apply bind_Ok_inv in Hk as (u & w2 & _ & Hret).
           apply ret_Ok_inv in Hret as [-> _]. rewrite app_nil_r. exact Hst.
        -- replace (fileText p c) with (group_text [mkFileRecord p c]) in Hk
             by apply group_text_one.
           eapply add_piece_grouped; eassumption.
      * apply ret_Ok_inv in Hvisit as [-> _]. rewrite app_nil_r. exact Hst.
    + destruct (has_extension extensions p).
      * apply bind_Ok_inv in Hvisit as (fileContent & w1 & Hget & _).
        unfold await in Hget. discriminate Hget.
      * apply ret_Ok_inv in Hvisit as [-> _]. rewrite app_nil_r. exact Hst.
    + apply ret_Ok_inv in Hvisit as [-> _]. rewrite app_nil_r. exact Hst.
  - rewrite visit_dir in Hvisit.
    apply bind_Ok_inv in Hvisit as (dirChunks & w1 & Hfetch & _).
    unfold Fused.fetchAllRepoContents in Hfetch.
    apply bind_Ok_inv in Hfetch as (x & w2 & Hget & _).
    unfold await in Hget. discriminate Hget.
  - rewrite visit_dir in Hvisit.
    apply bind_Ok_inv in Hvisit as (dirChunks & w1 & Hfetch & Hadd).
    unfold Fused.fetchAllRepoContents in Hfetch.
    apply bind_Ok_inv in Hfetch as (items' & w2 & Hget & Hfetch).
    unfold await in Hget. inversion Hget; subst items' w2.
    apply bind_Ok_inv in Hfetch as (std & w3 & Hall & Hret).
    apply ret_Ok_inv in Hret as [<- _].
    assert (Hgen : forall s rs0 w0 s' w0',
               grouped s rs0 ->
               Fused.visit_all tiktoken extensions items s w0 = (Ok s', w0') ->
               grouped s' (rs0 ++ walk_all extensions items)).
    { clear - IH.
      induction IH as [|it rest Hit Hrest IHrest]; intros s rs0 w0 s' w0' Hs Hall.
      - simpl in Hall. apply ret_Ok_inv in Hall as [-> _].
        unfold walk_all. simpl. rewrite app_nil_r. exact Hs.
      - cbn [Fused.visit_all] in Hall.
        apply bind_Ok_inv in Hall as (s1 & w4 & Hone & Hmore).
        unfold walk_all. simpl. rewrite app_assoc.
        eapply IHrest; [|exact Hmore].
        eapply Hit; eassumption. }
    pose proof (Hgen _ _ _ _ _ grouped_start Hall) as Hd. simpl in Hd.
    apply flush_grouped in Hd as (groups & Hconcat & Hflush).
    rewrite Hflush in Hadd.
    cbn [walk]. fold (walk_all extensions items). rewrite <- Hconcat.
    eapply add_pieces_grouped; eassumption.
  - cbn [Fused.visit walk] in *.
    apply ret_Ok_inv in Hvisit as [-> _]. rewrite app_nil_r. exact Hst.
Qed.

Lemma visit_all_grouped tiktoken extensions items :
  forall st rs w st' w',
    grouped st rs ->
    Fused.visit_all tiktoken extensions items st w = (Ok st', w') ->
    grouped st' (rs ++ walk_all extensions items).
Proof.
  induction items as [|it items IH]; intros st rs w st' w' Hst Hall.
  - simpl in Hall. apply ret_Ok_inv in Hall as [-> _].
    unfold walk_all. simpl. rewrite app_nil_r. exact Hst.
  - cbn [Fused.visit_all] in Hall.
    apply bind_Ok_inv in Hall as (s1 & w1 & Hone & Hmore).
    unfold walk_all. simpl. rewrite app_assoc.
    eapply IH; [|exact Hmore].
    eapply visit_grouped; eassumption.
Qed.

(** The chunks of a successful fetch are the texts of consecutive groups of
    the records of the Tree Walker. *)
Lemma fetchAllRepoContents_grouped tiktoken extensions items w chunks w' :
  Fused.fetchAllRepoContents tiktoken extensions (Ok items) w = (Ok chunks, w') ->
  exists groups,
    concat groups = walk_all extensions items /\ chunks = map group_text groups.
Proof.
  intros Hfetch. unfold Fused.fetchAllRepoContents in Hfetch.
  apply bind_Ok_inv in Hfetch as (items' & w1 & Hget & Hfetch).
  unfold await in Hget. inversion Hget; subst items' w1.
  apply bind_Ok_inv in Hfetch as (st & w2 & Hall & Hret).
  apply ret_Ok_inv in Hret as [<- _].
  apply (visit_all_grouped _ _ _ _ [] _ _ _ grouped_start) in Hall.
  simpl in Hall. apply flush_grouped in Hall. exact Hall.
Qed.


(** *** The chunks of the fused walker respect the budget *)

Section FusedBudget.

Variable tiktoken : option Fused.Tiktoken.
Variable extensions : list string.
Variable rs : list FileRecord.

Lemma add_piece_budgeted piece st w st' w' :
  budgeted_acc tiktoken rs st -> budgeted tiktoken rs piece ->
  Fused.add_piece tiktoken piece st w = (Ok st', w') ->
  budgeted_acc tiktoken rs st'.
Proof.
  destruct st as [chunks cur]. intros [Hchunks Hcur] Hpiece Hadd.
  simpl in Hchunks, Hcur. unfold Fused.add_piece in Hadd.
  apply bind_Ok_inv in Hadd as (tokens & w1 & Hcount & Hk).
  pose proof (countTokens_estimate tiktoken (cur ++ piece) w) as Hest.
  rewrite Hcount in Hest. simpl in Hest. inversion Hest; subst tokens.
  destruct (estimate tiktoken (cur ++ piece) >? Fused.budget) eqn:Hgt;
    apply ret_Ok_inv in Hk as [<- _]; split; simpl.
  - apply Forall_app. split; [exact Hchunks|]. constructor; [exact Hcur|constructor].
  - exact Hpiece.
  - exact Hchunks.
  - right. right. rewrite Z.gtb_ltb in Hgt. apply Z.ltb_ge in Hgt. exact Hgt.
Qed.

Lemma add_pieces_budgeted pieces :
  Forall (budgeted tiktoken rs) pieces ->
  forall st w st' w',
    budgeted_acc tiktoken rs st ->
    Fused.add_pieces tiktoken pieces st w = (Ok st', w') ->
    budgeted_acc tiktoken rs st'.
Proof.
  induction 1 as [|piece rest Hpiece Hrest IH]; intros st w st' w' Hst Hadd.
  - simpl in Hadd. apply ret_Ok_inv in Hadd as [<- _]. exact Hst.
  - cbn [Fused.add_pieces] in Hadd.
    apply bind_Ok_inv in Hadd as (st1 & w1 & Hone & Hmore).
    eapply IH; [|exact Hmore].
    eapply add_piece_budgeted; eassumption.
Qed.

Lemma flush_budgeted st :
  budgeted_acc tiktoken rs st -> Forall (budgeted tiktoken rs) (Fused.flush st).
Proof.
  destruct st as [chunks cur]. intros [Hchunks Hcur]. simpl in Hchunks, Hcur.
  unfold Fused.flush. destruct (truthy cur); [|exact Hchunks].
  apply Forall_app. split; [exact Hchunks|]. constructor; [exact Hcur|constructor].
Qed.

Lemma visit_all_budgeted items :
  Forall (fun item =>
            incl (walk extensions item) rs ->
            forall st w st' w',
              budgeted_acc tiktoken rs st ->
              Fused.visit tiktoken extensions item st w = (Ok st', w') ->
              budgeted_acc tiktoken rs st') items ->
  incl (walk_all extensions items) rs ->
  forall st w st' w',
    budgeted_acc tiktoken rs st ->
    Fused.visit_all tiktoken extensions items st w = (Ok st', w') ->
    budgeted_acc tiktoken rs st'.
Proof.
  induction 1 as [|it rest Hit Hrest IH]; intros Hincl st w st' w' Hst Hall.
  - simpl in Hall. apply ret_Ok_inv in Hall as [<- _]. exact Hst.
  - cbn [Fused.visit_all] in Hall.
    apply bind_Ok_inv in Hall as (st1 & w1 & Hone & Hmore).
    unfold walk_all in Hincl. cbn [flat_map] in Hincl.
    apply incl_app_inv in Hincl as [Hhead Htail].
    eapply IH; [exact Htail| |exact Hmore].
    eapply Hit; eassumption.
Qed.

Lemma visit_budgeted item :
  incl (walk extensions item) rs ->
  forall st w st' w',
    budgeted_acc tiktoken rs st ->
    Fused.visit tiktoken extensions item st w = (Ok st', w') ->
    budgeted_acc tiktoken rs st'.
Proof.
  induction item as [p download|p err|p items IH|type p] using node_induction;
    intros Hincl st w st' w' Hst Hvisit.
  - destruct download as [get|]; cbn [Fused.visit] in Hvisit;
      [|apply ret_Ok_inv in Hvisit as [<- _]; exact Hst].
    destruct (has_extension extensions p) eqn:Hext;
      [|apply ret_Ok_inv in Hvisit as [<- _]; exact Hst].
    apply bind_Ok_inv in Hvisit as (fileContent & w1 & Hget & Hk).
    unfold await in Hget. inversion Hget; subst get w1.
    destruct (strlen fileContent >? size_ceiling) eqn:Hgt.
    + apply bind_Ok_inv in Hk as (u & w2 & _ & Hret).
      apply ret_Ok_inv in Hret as [<- _]. exact Hst.
    + eapply add_piece_budgeted; [exact Hst| |exact Hk].
      right. left. exists (mkFileRecord p fileContent). split; [|reflexivity].
      apply Hincl. cbn [walk]. rewrite Hext.
      rewrite Z.gtb_ltb, Z.ltb_antisym in Hgt.
      apply negb_false_iff in Hgt. rewrite Hgt. left. reflexivity.
  - rewrite visit_dir in Hvisit.
    apply bind_Ok_inv in Hvisit as (dirChunks & w1 & Hfetch & _).
    unfold Fused.fetchAllRepoContents in Hfetch.
    apply bind_Ok_inv in Hfetch as (x & w2 & Hget & _).
    unfold await in Hget. discriminate Hget.
  - rewrite visit_dir in Hvisit.
    apply bind_Ok_inv in Hvisit as (dirChunks & w1 & Hfetch & Hadd).
    unfold Fused.fetchAllRepoContents in Hfetch.
    apply bind_Ok_inv in Hfetch as (items' & w2 & Hget & Hfetch).
    unfold await in Hget. inversion Hget; subst items' w2.
    apply bind_Ok_inv in Hfetch as (std & w3 & Hall & Hret).
    apply ret_Ok_inv in Hret as [<- _].
    eapply add_pieces_budgeted; [|exact Hst|exact Hadd].
    apply flush_budgeted.
    eapply (visit_all_budgeted items IH); [exact Hincl| |exact Hall].
    split; [constructor|left; reflexivity].
  - cbn [Fused.visit] in Hvisit. apply ret_Ok_inv in Hvisit as [<- _]. exact Hst.
Qed.

End FusedBudget.

(** Every chunk of a successful fetch is within the budget of 25,000
    tokens of the estimator, unless it is the block of one of the files
    that the walk retains, or empty. *)
Lemma fetchAllRepoContents_budgeted tiktoken extensions items w chunks w' :
  Fused.fetchAllRepoContents tiktoken extensions (Ok items) w = (Ok chunks, w') ->
  Forall (budgeted tiktoken (walk_all extensions items)) chunks.
Proof.
  intros Hfetch. unfold Fused.fetchAllRepoContents in Hfetch.
  apply bind_Ok_inv in Hfetch as (items' & w1 & Hget & Hfetch).
  unfold await in Hget. inversion Hget; subst items' w1.
  apply bind_Ok_inv in Hfetch as (st & w2 & Hall & Hret).
  apply ret_Ok_inv in Hret as [<- _].
  apply flush_budgeted.
  eapply (visit_all_budgeted tiktoken extensions (walk_all extensions items) items);
    [|apply incl_refl| |exact Hall].
  - apply Forall_forall. intros item _ Hincl.
    apply visit_budgeted. exact Hincl.
  - split; [constructor|left; reflexivity].
Qed.

(** *** Empty chunks *)

(** When the first block that the fused walker meets is over the budget,
    the empty accumulator is closed as a chunk. *)
Lemma fused_first_block_over_budget extensions p fileContent w :
  has_extension extensions p = true ->
  strlen fileContent <= size_ceiling ->
  Fused.budget < Math_ceil_div (strlen (fileText p fileContent)) 4 ->
  Fused.fetchAllRepoContents None extensions
    (Ok [FileNode p (Some (Ok fileContent))]) w
  = (Ok [""; fileText p fileContent], w).
Proof.
  intros Hext Hsize Hover.
  unfold Fused.fetchAllRepoContents, bind, await.
  cbn [Fused.visit_all Fused.visit]. rewrite Hext. unfold bind, await.
  replace (strlen fileContent >? size_ceiling) with false
    by (symmetry; rewrite Z.gtb_ltb; apply Z.ltb_ge; exact Hsize).
  unfold Fused.add_piece, Fused.countTokens, bind, try_catch, ret. cbn [append].
  replace (Math_ceil_div (strlen (fileText p fileContent)) 4 >? Fused.budget) with true
    by (symmetry; apply Z.gtb_lt; exact Hover).
  reflexivity.
Qed.

(** C3. Both chunkers do return an empty chunk: when the first piece of
    text alone is over the budget, the empty accumulator is closed as a
    chunk.  For [chunkSourceCode] the text is one line of 8 characters
    (2 tokens) and the budget is 1 token; for the fused walker, without a
    tokenizer, the repository holds one file of 100,000 characters. *)
Theorem chunkers_push_empty_chunk :
  Server.chunkSourceCode "abcdefgh" 1 = [""; "abcdefgh"]
  /\ In "" (Server.chunkSourceCode "abcdefgh" 1)
  /\ Fused.fetchAllRepoContents None default_extensions
       (Ok [FileNode "a.js" (Some (Ok long_file_content))]) initial_world
     = (Ok [""; fileText "a.js" long_file_content], initial_world).
Proof.
  split; [reflexivity|]. split; [left; reflexivity|].
  apply fused_first_block_over_budget.
  - reflexivity.
  - vm_compute. discriminate.
  - vm_compute. reflexivity.
Qed.

(** ** Round trip and grouping *)




(** C2 (as amended).  In the fused walker of part_002 the chunks of a
    successful fetch are obtained by cutting the sequence of formatted
    blocks into consecutive groups and concatenating each group: every
    block, whatever its size, lies whole in one chunk, and none is dropped
    or divided.  [chunkSourceCode] of server.js cuts between lines: every
    non-empty line of the text is a line of one of the chunks. *)
Theorem blocks_never_split tiktoken extensions items w chunks w'
    sourceCode maxTokens :
  Fused.fetchAllRepoContents tiktoken extensions (Ok items) w = (Ok chunks, w') ->
  (exists groups,
      concat groups = walk_all extensions items /\ chunks = map group_text groups)
  /\ (forall line,
        In line (split LF sourceCode) -> truthy line = true ->
        exists chunk,
          In chunk (Server.chunkSourceCode sourceCode maxTokens)
          /\ In line (split LF chunk)).
Proof.
  intros Hfetch. split.
  - eapply fetchAllRepoContents_grouped. exact Hfetch.
  - intros line Hin Hne.
    assert (Hl : In line (nonempty_lines sourceCode)).
    { unfold nonempty_lines. apply filter_In. split; assumption. }
    rewrite <- (chunkSourceCode_lines sourceCode maxTokens) in Hl.
    unfold chunk_lines in Hl. apply filter_In in Hl as [Hl _].
    apply in_flat_map in Hl as (chunk & Hchunk & Hline).
    exists chunk. split; assumption.
Qed.

Lemma blocks_never_split_witness :
  Fused.fetchAllRepoContents None default_extensions (Ok scenario_items) initial_world
    = (Ok [fileText "a.py" (replicate 50 "a") ++ fileText "lib/c.js" (replicate 80 "c")],
       initial_world)
  /\ (exists groups,
        concat groups = walk_all default_extensions scenario_items
        /\ [fileText "a.py" (replicate 50 "a") ++ fileText "lib/c.js" (replicate 80 "c")]
           = map group_text groups)
  /\ (forall line,
        In line (split LF (group_text [two_line_file])) -> truthy line = true ->
        exists chunk,
          In chunk (Server.chunkSourceCode (group_text [two_line_file]) 5)
          /\ In line (split LF chunk)).
Proof.
  split; [reflexivity|].
  apply (blocks_never_split None default_extensions scenario_items initial_world
           _ initial_world (group_text [two_line_file]) 5).
  reflexivity.
Defined.

(** C2, as stated, fails on [chunkSourceCode]: with a budget of 5 tokens
    the file of two lines is divided between two chunks; neither its block
    nor its content lies within one chunk. *)
Lemma chunkSourceCode_splits_file :
  Server.chunkSourceCode (block two_line_file) 5
    = ["=== File: a ===" ++ nl ++ "aaaa"; "bbbb"]
  /\ forallb (fun chunk => negb (includes chunk (block two_line_file)))
       (Server.chunkSourceCode (block two_line_file) 5) = true
  /\ forallb (fun chunk => negb (includes chunk (content two_line_file)))
       (Server.chunkSourceCode (block two_line_file) 5) = true.
Proof.
  split; [reflexivity|]. split; reflexivity.
Qed.

(** ** Oversized files *)

(** C8. A file whose retrieved content is longer than 500,000 characters
    gives no record to the Tree Walker; each of the three loops (the fused
    walker, the worker, the main thread) passes over it with a warning on
    the console, without throwing and without touching what it has
    accumulated, and goes on with the entries that follow.  A listing made
    of this one file gives no chunk: the fused walker returns the empty
    list, and [fetchDirContents] of the worker gives the empty string,
    which [chunkSourceCode] turns into the empty list. *)
Theorem oversized_file_skipped tiktoken extensions workerPath p fileContent
    rest st contents out w :
  has_extension extensions p = true ->
  size_ceiling < strlen fileContent ->
  let big := FileNode p (Some (Ok fileContent)) in
  walk extensions big = []
  /\ Fused.visit_all tiktoken extensions (big :: rest) st w
     = Fused.visit_all tiktoken extensions rest st
         (logged LWarn (skip_warning "" p fileContent) w)
  /\ Fused.fetchAllRepoContents tiktoken extensions (Ok [big]) w
     = (Ok [], logged LWarn (skip_warning "" p fileContent) w)
  /\ Server.worker_items workerPath extensions (big :: rest) contents w
     = Server.worker_items workerPath extensions rest contents
         (logged LWarn (skip_warning ("Worker " ++ workerPath ++ ": ") p fileContent) w)
  /\ Server.fetchDirContents workerPath extensions [Ok [big]] w
     = (Ok "", logged LWarn (skip_warning ("Worker " ++ workerPath ++ ": ") p fileContent) w)
  /\ Server.root_items extensions (big :: rest) out w
     = Server.root_items extensions rest out
         (logged LWarn (skip_warning "Main: " p fileContent) w)
  /\ Server.chunkSourceCode "" Server.default_maxTokens = [].
Proof.
  intros Hext Hbig big.
  assert (Hgt : (strlen fileContent >? size_ceiling) = true)
    by (apply Z.gtb_lt; exact Hbig).
  assert (Hle : (strlen fileContent <=? size_ceiling) = false)
    by (apply Z.leb_gt; exact Hbig).
  assert (Hvisit : forall s w0,
            Fused.visit tiktoken extensions big s w0
            = (Ok s, logged LWarn (skip_warning "" p fileContent) w0)).
  { intros s w0. unfold big. cbn [Fused.visit]. rewrite Hext.
    unfold bind, await. rewrite Hgt. reflexivity. }
  split.
  { unfold big. cbn [walk]. rewrite Hext, Hle. reflexivity. }
  split.
  { cbn [Fused.visit_all]. unfold bind at 1. rewrite Hvisit. reflexivity. }
  split.
  { unfold Fused.fetchAllRepoContents, bind, await. cbn [Fused.visit_all].
    unfold bind. rewrite Hvisit. reflexivity. }
  split.
  { unfold big. cbn [Server.worker_items]. rewrite Hext.
    unfold bind, await. rewrite Hgt.
    unfold skip_warning. rewrite !append_assoc. reflexivity. }
  split.
  { unfold Server.fetchDirContents, big. cbn [Server.worker_pages].
    unfold bind, await. cbn [Server.worker_items]. rewrite Hext.
    unfold bind, await. rewrite Hgt.
    unfold skip_warning. rewrite !append_assoc. reflexivity. }
  split.
  { unfold big. cbn [Server.root_items]. rewrite Hext.
    unfold bind, await. rewrite Hgt. reflexivity. }
  reflexivity.
Qed.

Lemma oversized_file_skipped_witness :
  strlen big_file_content = 600000
  /\ Fused.fetchAllRepoContents None default_extensions
       (Ok [FileNode "big.js" (Some (Ok big_file_content))]) initial_world
     = (Ok [], logged LWarn (skip_warning "" "big.js" big_file_content) initial_world)
  /\ Server.fetchDirContents "lib" default_extensions
       [Ok [FileNode "big.js" (Some (Ok big_file_content))]] initial_world
     = (Ok "", logged LWarn (skip_warning "Worker lib: " "big.js" big_file_content)
                 initial_world).
Proof.
  split; [vm_compute; reflexivity|].
  pose proof (oversized_file_skipped None default_extensions "lib" "big.js"
                big_file_content [] ([], "") [] (Server.mkStream "" false false)
                initial_world) as H.
  assert (Hext : has_extension default_extensions "big.js" = true) by reflexivity.
  assert (Hbig : size_ceiling < strlen big_file_content) by (vm_compute; reflexivity).
  destruct (H Hext Hbig) as (_ & _ & Hfused & _ & Hworker & _).
  split; [exact Hfused|exact Hworker].
Defined.

(** ** The worker of server.js *)

(** C6. Neither loop of server.js walks the directories that it lists:
    in the loop of the worker's [fetchDirContents] and in the root loop of
    the main thread, an entry that is a directory is passed over, and its
    listing is never asked for.  For a repository whose only source file is
    [lib/sub/x.js], the Tree Walker and the fused walker of part_002 give
    the file, while the loop of the worker of [lib] collects nothing from
    the listing of [lib]. *)
Theorem worker_does_not_recurse :
  (forall workerPath extensions p listing rest contents w,
      Server.worker_items workerPath extensions (DirNode p listing :: rest) contents w
      = Server.worker_items workerPath extensions rest contents w)
  /\ (forall extensions p listing rest out w,
        Server.root_items extensions (DirNode p listing :: rest) out w
        = Server.root_items extensions rest out w)
  /\ walk_all default_extensions nested_repo = [mkFileRecord "lib/sub/x.js" "x"]
  /\ Fused.fetchAllRepoContents None default_extensions (Ok nested_repo) initial_world
     = (Ok [fileText "lib/sub/x.js" "x"], initial_world)
  /\ Server.worker_items "lib" default_extensions nested_listing [] initial_world
     = (Ok [], initial_world).
Proof.
  split; [reflexivity|]. split; [reflexivity|]. repeat split; reflexivity.
Qed.

(** ** The coordinator of server.js *)

(** The root loop never ends the stream. *)
Lemma root_items_open extensions rootItems :
  forall out w out' w',
    Server.root_items extensions rootItems out w = (Ok out', w') ->
    Server.ended out = false -> Server.write_after_end out = false ->
    Server.ended out' = false /\ Server.write_after_end out' = false.
Proof.
  induction rootItems as [|item rest IH]; intros out w out' w' Hroot Hopen Hclean.
  - simpl in Hroot. apply ret_Ok_inv in Hroot as [<- _]. split; assumption.
  - cbn [Server.root_items] in Hroot.
    destruct item as [p [get|]|p listing|type p]; try (eapply IH; eassumption).
    destruct (has_extension extensions p); [|eapply IH; eassumption].
    apply bind_Ok_inv in Hroot as (fileContent & w1 & _ & Hk).
    destruct (strlen fileContent >? size_ceiling).
    + apply bind_Ok_inv in Hk as (u & w2 & _ & Hk). eapply IH; eassumption.
    + eapply IH; [exact Hk| |]; unfold Server.stream_write; rewrite Hopen.
      * reflexivity.
      * exact Hclean.
Qed.





(** The handlers never throw; the first uncaught error of a worker is the
    rejection that stays; the stream is not ended before [workerCount]
    exits have been counted. *)
Lemma handle_all_invariant directories events :
  forall st w,
    exists st' w',
      Server.handle_all directories (List.length directories) events st w = (Ok st', w')
      /\ Server.rejected st'
         = match Server.rejected st with
           | Some e => Some e
           | None => first_error (List.length directories) events
           end
      /\ (Server.ended (Server.sink st) = false ->
          Server.write_after_end (Server.sink st) = false ->
          (Server.completedWorkers st + List.length (exits events)
           < List.length directories)%nat ->
          Server.ended (Server.sink st') = false
          /\ Server.write_after_end (Server.sink st') = false).
Proof.
  induction events as [|ev later IH]; intros st w.
  - exists st, w. split; [reflexivity|]. split.
    + destruct (Server.rejected st); reflexivity.
    + intros Hopen Hclean _. split; assumption.
  - cbn [Server.handle_all]. unfold bind.
    destruct ev as [i data|i|i err]; cbn [Server.handle first_error].
    + change (exits (Server.OnMessage i data :: later)) with (exits later).
      destruct (nth_error directories i) as [dir|]; [|apply IH].
      destruct data as [data|error].
      * unfold ret at 1.
        destruct (IH (Server.mkCoordinator (Server.stream_write data (Server.sink st))
                        (Server.completedWorkers st) (Server.resolved st)
                        (Server.rejected st)) w)
          as (st' & w' & Hrun & Hrej & Hopen).
        exists st', w'. split; [exact Hrun|]. split; [exact Hrej|].
        intros H1 H2 H3. apply Hopen; cbn [Server.sink Server.completedWorkers].
        -- unfold Server.stream_write. rewrite H1. reflexivity.
        -- unfold Server.stream_write. rewrite H1. exact H2.
        -- exact H3.
      * destruct (truthy error).
        -- unfold bind, console_error, console_write, ret. apply IH.
        -- unfold ret at 1. apply IH.
    + change (exits (Server.OnExit i :: later)) with (i :: exits later).
      cbn [List.length].
      destruct (nth_error directories i) as [dir|].
      * unfold ret at 1.
        match goal with
        | |- context [Server.handle_all _ _ later ?s w] =>
            destruct (IH s w) as (st' & w' & Hrun & Hrej & Hopen)
        end.
        exists st', w'. split; [exact Hrun|]. split; [exact Hrej|].
        intros H1 H2 H3. apply Hopen; cbn [Server.sink Server.completedWorkers].
        -- destruct (Nat.eqb_spec (S (Server.completedWorkers st))
                       (List.length directories)); [lia|exact H1].
        -- destruct (Nat.eqb_spec (S (Server.completedWorkers st))
                       (List.length directories)); [lia|exact H2].
        -- lia.
      * destruct (IH st w) as (st' & w' & Hrun & Hrej & Hopen).
        exists st', w'. split; [exact Hrun|]. split; [exact Hrej|].
        intros H1 H2 H3. apply Hopen; [assumption|assumption|lia].
    + change (exits (Server.OnError i err :: later)) with (exits later).
      destruct (nth_error directories i) as [dir|] eqn:Hnth.
      * assert (Hrange : (i <? List.length directories)%nat = true).
        { apply Nat.ltb_lt. apply nth_error_Some. congruence. }
        rewrite Hrange. unfold ret at 1.
        match goal with
        | |- context [Server.handle_all _ _ later ?s w] =>
            destruct (IH s w) as (st' & w' & Hrun & Hrej & Hopen)
        end.
        exists st', w'. split; [exact Hrun|]. split.
        -- rewrite Hrej. cbn [Server.rejected].
           destruct (Server.rejected st); reflexivity.
        -- exact Hopen.
      * assert (Hrange : (i <? List.length directories)%nat = false).
        { apply Nat.ltb_ge. apply nth_error_None. exact Hnth. }
        rewrite Hrange. apply IH.
Qed.






(** * Further properties *)

(** ** The generation client: backoff *)

Lemma backoff_shift delay attempt k :
  map (fun i => delay * 2 ^ (attempt + Z.of_nat i)) (seq 0 (S k))
  = delay * 2 ^ attempt
    :: map (fun i => delay * 2 ^ (attempt + 1 + Z.of_nat i)) (seq 0 k).
Proof.
  cbn [seq map]. rewrite Z.add_0_r. f_equal.
  rewrite <- seq_shift, map_map. apply map_ext.
  intros i. do 2 f_equal. lia.
Qed.

(** [k] rate-limited attempts in a row: [k] calls, [k] waits that double,
    and the loop is at attempt [attempt + k]. *)
Lemma retry_loop_limited openai prompt retries delay k :
  forall remaining attempt w,
    (forall i, (i < k)%nat ->
       exists e, openai prompt (api_calls w + i)%nat = Throw e /\ is_rate_limit e = true) ->
    exists lines,
      retry_loop openai prompt retries delay (k + remaining) attempt w
      = retry_loop openai prompt retries delay remaining (attempt + Z.of_nat k)
          (mkWorld (console w ++ lines)%list (api_calls w + k)%nat
             (slept w ++ map (fun i => delay * 2 ^ (attempt + Z.of_nat i)) (seq 0 k))%list).
Proof.
  induction k as [|k IH]; intros remaining attempt w Hlimited.
  - exists []. cbn [seq map plus]. rewrite !app_nil_r, Z.add_0_r, Nat.add_0_r.
    destruct w; reflexivity.
  - destruct (Hlimited 0%nat ltac:(lia)) as (e & He & Hrl).
    rewrite Nat.add_0_r in He.
    cbn [plus]. rewrite (retry_loop_step _ _ _ _ _ _ _ _ He Hrl).
    match goal with
    | |- context [retry_loop _ _ _ _ _ _ ?w0] =>
        destruct (IH remaining (attempt + 1) w0) as (lines & Hloop)
    end.
    { intros i Hi. cbn [api_calls].
      destruct (Hlimited (S i) ltac:(lia)) as (e' & He' & Hrl').
      exists e'. split; [|exact Hrl'].
      rewrite <- He'. f_equal. lia. }
    eexists (_ :: lines). rewrite Hloop.
    replace (attempt + Z.of_nat (S k)) with (attempt + 1 + Z.of_nat k) by lia.
    f_equal. cbn [console api_calls slept logged]. rewrite backoff_shift.
    f_equal.
    + rewrite <- app_assoc. reflexivity.
    + lia.
    + rewrite <- app_assoc. reflexivity.
Qed.

Lemma backoff_from_zero delay k :
  map (fun i => delay * 2 ^ (0 + Z.of_nat i)) (seq 0 k) = backoff delay k.
Proof. unfold backoff. apply map_ext. intros i. reflexivity. Qed.

(** X2. An error that is not a rate limit is thrown again at once: after
    [k] rate-limited attempts, with [k] below [retries], an attempt that
    fails with any other error ends the call with that very error, with no
    further call and no further wait. *)
Theorem retry_other_error_propagates openai prompt retries delay k error w :
  (k < Z.to_nat retries)%nat ->
  (forall i, (i < k)%nat ->
     exists e, openai prompt (api_calls w + i)%nat = Throw e /\ is_rate_limit e = true) ->
  openai prompt (api_calls w + k)%nat = Throw error ->
  is_rate_limit error = false ->
  fst (callOpenAIWithRetry openai prompt retries delay w) = Throw error
  /\ api_calls (snd (callOpenAIWithRetry openai prompt retries delay w))
     = (api_calls w + k + 1)%nat
  /\ slept (snd (callOpenAIWithRetry openai prompt retries delay w))
     = (slept w ++ backoff delay k)%list.
Proof.
  intros Hk Hlimited Hfail Hother. unfold callOpenAIWithRetry.
  replace (Z.to_nat retries) with (k + S (Z.to_nat retries - k - 1))%nat by lia.
  destruct (retry_loop_limited openai prompt retries delay k
              (S (Z.to_nat retries - k - 1)) 0 w Hlimited) as (lines & Hloop).
  rewrite Hloop. cbn [retry_loop].
  unfold bind, try_catch, create, ret, throw. cbn [api_calls console slept].
  rewrite Hfail, Hother. cbn [fst snd api_calls slept].
  rewrite backoff_from_zero. repeat split. lia.
Qed.

Lemma retry_other_error_propagates_witness :
  fst (callOpenAIWithRetry (limited_then 1 (Throw network_error)) "p" 3 1000
         initial_world) = Throw network_error
  /\ api_calls (snd (callOpenAIWithRetry (limited_then 1 (Throw network_error)) "p"
                       3 1000 initial_world)) = (0 + 1 + 1)%nat
  /\ slept (snd (callOpenAIWithRetry (limited_then 1 (Throw network_error)) "p"
                   3 1000 initial_world)) = ([] ++ backoff 1000 1)%list.
Proof.
  apply (retry_other_error_propagates (limited_then 1 (Throw network_error)) "p" 3 1000
           1 network_error initial_world).
  - vm_compute. lia.
  - intros i Hi. exists (mkError "Too Many Requests" (Some 429)).
    split; [|reflexivity].
    unfold limited_then. cbn [api_calls initial_world plus].
    destruct (Nat.ltb_spec i 1); [reflexivity|lia].
  - reflexivity.
  - reflexivity.
Defined.

(** ** The generation client on top of the openai client *)

(** X25. With the [openai] client, [callOpenAIWithRetry] never tries
    again: no error of the client has a [response] property, so for every
    positive number of retries the call is one call of the client, whose
    completion is returned and whose error is thrown again, with no wait
    and nothing written to the console. *)
Theorem client_call_is_single_attempt api prompt retries delay w :
  0 < retries ->
  callOpenAIWithRetry (openai_client api) prompt retries delay w
  = (openai_client api prompt (api_calls w),
     mkWorld (console w) (S (api_calls w)) (slept w)).
Proof.
  intros Hretries. unfold callOpenAIWithRetry.
  destruct (Z.to_nat retries) as [|remaining] eqn:Hn; [lia|].
  destruct (openai_client api prompt (api_calls w)) as [response|e] eqn:Hcall.
  - cbn [retry_loop]. unfold bind, try_catch, create, ret. rewrite Hcall. reflexivity.
  - apply retry_loop_rethrow; [exact Hcall|].
    unfold openai_client in Hcall.
    destruct (api prompt (api_calls w)); inversion Hcall; reflexivity.
Qed.

Lemma client_call_is_single_attempt_witness :
  callOpenAIWithRetry (openai_client (fun _ _ => HttpError 503 "Service Unavailable"))
    "p" default_retries default_delay initial_world
  = (Throw (mkError "Service Unavailable" None), mkWorld [] 1 []).
Proof.
  apply (client_call_is_single_attempt (fun _ _ => HttpError 503 "Service Unavailable")
           "p" default_retries default_delay initial_world).
  unfold default_retries. lia.
Defined.

(** ** The generation client: what it never does *)

Lemma retry_loop_bounded openai prompt retries delay remaining :
  forall attempt w,
    (api_calls w
     <= api_calls (snd (retry_loop openai prompt retries delay remaining attempt w))
     <= api_calls w + remaining)%nat
    /\ (List.length (slept (snd (retry_loop openai prompt retries delay remaining attempt w)))
        <= List.length (slept w) + remaining)%nat
    /\ (forall response,
          fst (retry_loop openai prompt retries delay remaining attempt w) = Ok response ->
          (api_calls w
           < api_calls (snd (retry_loop openai prompt retries delay remaining attempt w)))%nat).
Proof.
  induction remaining as [|remaining IH]; intros attempt w.
  - cbn [retry_loop]. unfold throw. cbn [fst snd].
    repeat split; try lia. intros response H. discriminate H.
  - destruct (openai prompt (api_calls w)) as [response|e] eqn:Hcall.
    + assert (Hstep : retry_loop openai prompt retries delay (S remaining) attempt w
                      = (Ok response, mkWorld (console w) (S (api_calls w)) (slept w))).
      { cbn [retry_loop]. unfold bind, try_catch, create, ret. rewrite Hcall. reflexivity. }
      rewrite Hstep. cbn [fst snd api_calls slept]. repeat split; lia.
    + destruct (is_rate_limit e) eqn:Hrl.
      * rewrite (retry_loop_step _ _ _ _ _ _ _ _ Hcall Hrl).
        match goal with
        | |- context [retry_loop _ _ _ _ remaining ?a ?w0] =>
            destruct (IH a w0) as (Hcalls & Hwaits & Hok)
        end.
        cbn [api_calls slept] in Hcalls, Hwaits, Hok.
        rewrite length_app in Hwaits. cbn [List.length] in Hwaits.
        repeat split; lia.
      * assert (Hstep : retry_loop openai prompt retries delay (S remaining) attempt w
                        = (Throw e, mkWorld (console w) (S (api_calls w)) (slept w))).
        { cbn [retry_loop]. unfold bind, try_catch, create, throw.
          rewrite Hcall, Hrl. reflexivity. }
        rewrite Hstep. cbn [fst snd api_calls slept].
        repeat split; lia.
Qed.

(** X4. Whatever the service answers, one call of [callOpenAIWithRetry]
    makes at most [retries] requests and at most [retries] waits, and it
    never returns a response without having made a request. *)
Theorem retry_calls_bounded openai prompt retries delay w :
  (api_calls w
   <= api_calls (snd (callOpenAIWithRetry openai prompt retries delay w))
   <= api_calls w + Z.to_nat retries)%nat
  /\ (List.length (slept (snd (callOpenAIWithRetry openai prompt retries delay w)))
      <= List.length (slept w) + Z.to_nat retries)%nat
  /\ (forall response,
        fst (callOpenAIWithRetry openai prompt retries delay w) = Ok response ->
        (api_calls w
         < api_calls (snd (callOpenAIWithRetry openai prompt retries delay w)))%nat).
Proof. unfold callOpenAIWithRetry. apply retry_loop_bounded. Qed.

Lemma generate_from_bounded openai total chunks :
  forall i rstParts w,
    (api_calls (snd (Server.generate_from openai total i chunks rstParts w))
     <= api_calls w + 3 * List.length chunks)%nat.
Proof.
  induction chunks as [|chunk rest IH]; intros i rstParts w.
  - cbn [Server.generate_from]. unfold ret. cbn [snd List.length]. lia.
  - cbn [Server.generate_from]. unfold bind at 1.
    unfold console_log, console_write.
    match goal with
    | |- context [bind (callOpenAIWithRetry ?o ?p ?r ?d) ?k ?w0] =>
        pose proof (retry_loop_bounded o p r d (Z.to_nat r) 0 w0) as ((_ & Hcall) & _);
        fold (callOpenAIWithRetry o p r d) in Hcall;
        unfold bind;
        destruct (callOpenAIWithRetry o p r d w0) as [[gptResponse|e] w1]
    end.
    + cbn [snd api_calls] in Hcall.
      specialize (IH (S i) (rstParts ++ [gptResponse])%list w1).
      change (Z.to_nat default_retries) with 3%nat in Hcall.
      cbn [List.length]. lia.
    + cbn [snd api_calls] in *.
      change (Z.to_nat default_retries) with 3%nat in Hcall.
      cbn [List.length]. lia.
Qed.

(** X5. Whatever the service answers, the generation loop of the request
    handler makes at most three requests per chunk. *)
Theorem generate_all_calls_bounded openai sourceCodeChunks w :
  (api_calls (snd (Server.generate_all openai sourceCodeChunks w))
   <= api_calls w + 3 * List.length sourceCodeChunks)%nat.
Proof. unfold Server.generate_all. apply generate_from_bounded. Qed.

Lemma callOpenAIWithRetry_first_ok openai prompt response w :
  openai prompt (api_calls w) = Ok response ->
  callOpenAIWithRetry openai prompt default_retries default_delay w
  = (Ok response, mkWorld (console w) (S (api_calls w)) (slept w)).
Proof.
  intros Hcall. unfold callOpenAIWithRetry.
  change (Z.to_nat default_retries) with 3%nat. cbn [retry_loop].
  unfold bind, try_catch, create, ret. rewrite Hcall. reflexivity.
Qed.

Lemma generate_from_answers openai f total chunks :
  (forall prompt n, openai prompt n = Ok (f prompt n)) ->
  forall i rstParts w,
    fst (Server.generate_from openai total i chunks rstParts w)
    = Ok (rstParts ++ answers f total i (api_calls w) chunks)%list
    /\ api_calls (snd (Server.generate_from openai total i chunks rstParts w))
       = (api_calls w + List.length chunks)%nat
    /\ slept (snd (Server.generate_from openai total i chunks rstParts w)) = slept w.
Proof.
  intros Hanswers.
  induction chunks as [|chunk rest IH]; intros i rstParts w.
  - cbn [Server.generate_from answers List.length]. unfold ret. cbn [fst snd].
    rewrite app_nil_r. repeat split. lia.
  - cbn [Server.generate_from]. unfold bind at 1.
    unfold console_log, console_write. unfold bind.
    rewrite (callOpenAIWithRetry_first_ok openai _ _ _ (Hanswers _ _)).
    cbn [api_calls console slept].
    match goal with
    | |- context [Server.generate_from _ _ _ _ ?parts ?w0] =>
        destruct (IH (S i) parts w0) as (Hparts & Hcalls & Hwaits)
    end.
    rewrite Hparts, Hcalls, Hwaits. cbn [api_calls slept answers List.length].
    rewrite <- app_assoc. repeat split. lia.
Qed.

(** X6. With a service that answers every request, the generation loop
    makes exactly one request per chunk, in the order of the chunks and
    without any wait; the prompt of chunk [i] names part [i + 1] of the
    total, and the fragments are returned in the order of the chunks. *)
Theorem generate_all_in_order openai f sourceCodeChunks w :
  (forall prompt n, openai prompt n = Ok (f prompt n)) ->
  fst (Server.generate_all openai sourceCodeChunks w)
  = Ok (answers f (List.length sourceCodeChunks) 0 (api_calls w) sourceCodeChunks)
  /\ api_calls (snd (Server.generate_all openai sourceCodeChunks w))
     = (api_calls w + List.length sourceCodeChunks)%nat
  /\ slept (snd (Server.generate_all openai sourceCodeChunks w)) = slept w.
Proof.
  intros Hanswers. unfold Server.generate_all.
  apply (generate_from_answers openai f _ sourceCodeChunks Hanswers 0%nat [] w).
Qed.

Lemma generate_all_in_order_witness :
  fst (Server.generate_all echo ["one"; "two"] initial_world)
  = Ok ["RST for " ++ prompt_of 2 0 "one"; "RST for " ++ prompt_of 2 1 "two"]
  /\ api_calls (snd (Server.generate_all echo ["one"; "two"] initial_world)) = 2%nat
  /\ slept (snd (Server.generate_all echo ["one"; "two"] initial_world)) = [].
Proof.
  apply (generate_all_in_order echo (fun prompt _ => "RST for " ++ prompt)
           ["one"; "two"] initial_world).
  intros prompt n. reflexivity.
Defined.

(** ** The estimator under concatenation *)

Lemma strlen_append a b : strlen (a ++ b) = strlen a + strlen b.
Proof.
  unfold strlen. induction a as [|c a IH]; [reflexivity|].
  cbn [append String.length]. rewrite !Nat2Z.inj_succ. lia.
Qed.

(** X7. The estimate of 4 characters per token grows with the text and
    is subadditive: the estimate of a concatenation is at least the estimate
    of each part and at most their sum. *)
Theorem countTokens_concat a b :
  Server.countTokens a <= Server.countTokens (a ++ b)
  /\ Server.countTokens b <= Server.countTokens (a ++ b)
  /\ Server.countTokens (a ++ b) <= Server.countTokens a + Server.countTokens b.
Proof.
  unfold Server.countTokens. rewrite strlen_append.
  pose proof (strlen_nonneg a). pose proof (strlen_nonneg b).
  pose proof (Math_ceil_div_4_spec (strlen a)).
  pose proof (Math_ceil_div_4_spec (strlen b)).
  pose proof (Math_ceil_div_4_spec (strlen a + strlen b)).
  lia.
Qed.

(** ** The line-based chunker: bounds and round trip *)

Lemma truthy_false s : truthy s = false -> s = "".
Proof. destruct s; [reflexivity|discriminate]. Qed.

Lemma chunk_loop_overshoot maxTokens lines :
  Forall single_line lines ->
  forall chunks currentChunk chunks' currentChunk',
    Forall (fun c => single_line c \/ Server.countTokens c <= maxTokens + 1) chunks ->
    single_line currentChunk \/ Server.countTokens currentChunk <= maxTokens + 1 ->
    Server.chunk_loop maxTokens lines chunks currentChunk = (chunks', currentChunk') ->
    Forall (fun c => single_line c \/ Server.countTokens c <= maxTokens + 1) chunks'
    /\ (single_line currentChunk' \/ Server.countTokens currentChunk' <= maxTokens + 1).
Proof.
  induction 1 as [|line rest Hline Hrest IH];
    intros chunks cur chunks' cur' Hchunks Hcur Hloop.
  - simpl in Hloop. inversion Hloop; subst. split; assumption.
  - cbn [Server.chunk_loop] in Hloop. cbv zeta in Hloop.
    destruct (Server.countTokens cur + Server.countTokens line >? maxTokens) eqn:Hgt.
    + eapply IH; [| |exact Hloop].
      * apply Forall_app. split; [exact Hchunks|]. constructor; [exact Hcur|constructor].
      * left. exact Hline.
    + eapply IH; [exact Hchunks| |exact Hloop].
      destruct cur as [|c cur]; cbn [truthy].
      * left. exact Hline.
      * right. rewrite Z.gtb_ltb in Hgt. apply Z.ltb_ge in Hgt.
        unfold Server.countTokens in *.
        rewrite !strlen_append.
        change (strlen nl) with 1.
        pose proof (Math_ceil_div_4_spec (strlen (String c cur))).
        pose proof (Math_ceil_div_4_spec (strlen line)).
        pose proof (Math_ceil_div_4_spec (strlen (String c cur) + (1 + strlen line))).
        lia.
Qed.

(** X8. A chunk of [chunkSourceCode] that holds more than one line is at
    most one token over the budget: every chunk is a single line of the
    text or has an estimate of at most [maxTokens + 1]. *)
Theorem chunkSourceCode_overshoot sourceCode maxTokens :
  Forall (fun chunk => single_line chunk \/ Server.countTokens chunk <= maxTokens + 1)
    (Server.chunkSourceCode sourceCode maxTokens).
Proof.
  unfold Server.chunkSourceCode.
  destruct (Server.chunk_loop maxTokens (split LF sourceCode) [] "")
    as [chunks cur] eqn:Hloop.
  apply chunk_loop_overshoot in Hloop as [Hchunks Hcur].
  - destruct (truthy cur); [|exact Hchunks].
    apply Forall_app. split; [exact Hchunks|]. constructor; [exact Hcur|constructor].
  - apply split_line_fixed.
  - constructor.
  - left. reflexivity.
Qed.

Lemma chunk_loop_nonempty maxTokens lines :
  Forall (fun line => Server.countTokens line <= maxTokens) lines ->
  forall chunks currentChunk chunks' currentChunk',
    Forall (fun c => truthy c = true) chunks ->
    Server.chunk_loop maxTokens lines chunks currentChunk = (chunks', currentChunk') ->
    Forall (fun c => truthy c = true) chunks'.
Proof.
  induction 1 as [|line rest Hline Hrest IH]; intros chunks cur chunks' cur' Hchunks Hloop.
  - simpl in Hloop. inversion Hloop; subst. exact Hchunks.
  - cbn [Server.chunk_loop] in Hloop. cbv zeta in Hloop.
    destruct (Server.countTokens cur + Server.countTokens line >? maxTokens) eqn:Hgt.
    + eapply IH; [|exact Hloop].
      apply Forall_app. split; [exact Hchunks|]. constructor; [|constructor].
      destruct cur as [|c cur]; [|reflexivity].
      apply Z.gtb_lt in Hgt. change (Server.countTokens "") with 0 in Hgt. lia.
    + eapply IH; [exact Hchunks|exact Hloop].
Qed.

(** X9. When no line of the text is over the budget, [chunkSourceCode]
    returns no empty chunk. *)
Theorem chunkSourceCode_no_empty_chunk sourceCode maxTokens :
  Forall (fun line => Server.countTokens line <= maxTokens) (split LF sourceCode) ->
  Forall (fun chunk => chunk <> "") (Server.chunkSourceCode sourceCode maxTokens).
Proof.
  intros Hfit. unfold Server.chunkSourceCode.
  destruct (Server.chunk_loop maxTokens (split LF sourceCode) [] "")
    as [chunks cur] eqn:Hloop.
  apply (chunk_loop_nonempty _ _ Hfit) in Hloop; [|constructor].
  assert (Hall : Forall (fun c => truthy c = true)
                   (if truthy cur then (chunks ++ [cur])%list else chunks)).
  { destruct (truthy cur) eqn:Hcur; [|exact Hloop].
    apply Forall_app. split; [exact Hloop|]. constructor; [exact Hcur|constructor]. }
  eapply Forall_impl; [|exact Hall].
  intros c Hc Hempty. subst c. discriminate Hc.
Qed.

Lemma chunkSourceCode_no_empty_chunk_witness :
  Forall (fun chunk => chunk <> "")
    (Server.chunkSourceCode (nl ++ "abcd" ++ nl ++ nl ++ "efgh") 1).
Proof.
  apply (chunkSourceCode_no_empty_chunk (nl ++ "abcd" ++ nl ++ nl ++ "efgh") 1).
  cbn. repeat constructor; unfold Server.countTokens; cbn; lia.
Defined.

Lemma join_cons sep x y l : join sep (x :: y :: l) = x ++ sep ++ join sep (y :: l).
Proof. reflexivity. Qed.

Lemma join_split sep s : join (String sep "") (split sep s) = s.
Proof.
  induction s as [|c s IH]; [reflexivity|].
  cbn [split]. destruct (Ascii.eqb_spec c sep) as [->|Hne].
  - pose proof (split_not_nil sep s) as Hnil.
    destruct (split sep s) as [|l ls]; [congruence|].
    rewrite join_cons, IH. reflexivity.
  - pose proof (split_not_nil sep s) as Hnil.
    destruct (split sep s) as [|l ls]; [congruence|].
    destruct ls as [|l' ls].
    + cbn [join] in *. rewrite IH. reflexivity.
    + rewrite join_cons. rewrite join_cons in IH. rewrite <- IH. reflexivity.
Qed.

Lemma join_cons_nonempty sep x l : l <> [] -> join sep (x :: l) = x ++ sep ++ join sep l.
Proof. destruct l; [congruence|reflexivity]. Qed.

(** Two neighbours joined by the separator count as one element. *)
Lemma join_merge sep xs a b ys :
  join sep (xs ++ (a ++ sep ++ b) :: ys) = join sep (xs ++ a :: b :: ys).
Proof.
  induction xs as [|x xs IH].
  - cbn [app]. rewrite join_cons. destruct ys as [|y ys].
    + reflexivity.
    + rewrite !join_cons, !append_assoc. reflexivity.
  - cbn [app].
    rewrite !join_cons_nonempty by (destruct xs; discriminate).
    rewrite IH. reflexivity.
Qed.

Lemma chunk_loop_join maxTokens lines :
  forall chunks currentChunk chunks' currentChunk',
    truthy currentChunk = true ->
    Forall (fun line => truthy line = true) lines ->
    Server.chunk_loop maxTokens lines chunks currentChunk = (chunks', currentChunk') ->
    truthy currentChunk' = true
    /\ join nl (chunks' ++ [currentChunk']) = join nl (chunks ++ currentChunk :: lines).
Proof.
  induction lines as [|line rest IH]; intros chunks cur chunks' cur' Hcur Hlines Hloop.
  - simpl in Hloop. inversion Hloop; subst. split; [exact Hcur|reflexivity].
  - inversion Hlines as [|? ? Hline Hrest]; subst.
    cbn [Server.chunk_loop] in Hloop. cbv zeta in Hloop.
    destruct (Server.countTokens cur + Server.countTokens line >? maxTokens).
    + apply IH in Hloop as [Hcur' Hjoin]; [|exact Hline|exact Hrest].
      split; [exact Hcur'|]. rewrite Hjoin, <- app_assoc. reflexivity.
    + rewrite Hcur in Hloop.
      apply IH in Hloop as [Hcur' Hjoin]; [| |exact Hrest].
      * split; [exact Hcur'|]. rewrite Hjoin. apply join_merge.
      * destruct cur; [discriminate Hcur|reflexivity].
Qed.

(** X10. When the text has no empty line and its first line is within
    the budget, joining the chunks of [chunkSourceCode] with line feeds gives
    back the text. *)
Theorem chunkSourceCode_join_round_trip sourceCode maxTokens :
  Forall (fun line => line <> "") (split LF sourceCode) ->
  Server.countTokens (hd "" (split LF sourceCode)) <= maxTokens ->
  join nl (Server.chunkSourceCode sourceCode maxTokens) = sourceCode.
Proof.
  intros Hlines Hfirst.
  assert (Htruthy : Forall (fun line => truthy line = true) (split LF sourceCode)).
  { eapply Forall_impl; [|exact Hlines].
    intros line Hne. destruct line; [congruence|reflexivity]. }
  pose proof (join_split LF sourceCode) as Hsrc. fold nl in Hsrc.
  unfold Server.chunkSourceCode.
  destruct (split LF sourceCode) as [|first rest] eqn:Hsplit;
    [exfalso; eapply split_not_nil; exact Hsplit|].
  cbn [hd] in Hfirst. apply Forall_cons_iff in Htruthy as [Hfirst_ne Hrest].
  cbn [Server.chunk_loop]. cbv zeta.
  change (Server.countTokens "") with 0.
  replace (0 + Server.countTokens first >? maxTokens) with false
    by (symmetry; rewrite Z.gtb_ltb; apply Z.ltb_ge; lia).
  cbn [truthy append].
  destruct (Server.chunk_loop maxTokens rest [] first) as [chunks cur] eqn:Hloop.
  apply chunk_loop_join in Hloop as [Hcur Hjoin]; [|exact Hfirst_ne|exact Hrest].
  rewrite Hcur, Hjoin. exact Hsrc.
Qed.

Lemma chunkSourceCode_join_round_trip_witness :
  join nl (Server.chunkSourceCode ("aaaa" ++ nl ++ "bbbb" ++ nl ++ "cccccccccccc") 2)
  = "aaaa" ++ nl ++ "bbbb" ++ nl ++ "cccccccccccc".
Proof.
  apply (chunkSourceCode_join_round_trip
           ("aaaa" ++ nl ++ "bbbb" ++ nl ++ "cccccccccccc") 2).
  - cbn. repeat constructor; discriminate.
  - vm_compute. discriminate.
Defined.

(** ** The fused walker: when it succeeds *)

Lemma countTokens_total tiktoken text w :
  exists w', Fused.countTokens tiktoken text w = (Ok (estimate tiktoken text), w').
Proof.
  unfold Fused.countTokens, estimate, bind, try_catch, await, ret.
  destruct tiktoken as [tk|]; [|eexists; reflexivity].
  destruct (Fused.encode tk text); eexists; reflexivity.
Qed.

Lemma add_piece_total tiktoken piece st w :
  exists st' w', Fused.add_piece tiktoken piece st w = (Ok st', w').
Proof.
  destruct st as [chunks cur]. unfold Fused.add_piece.
  destruct (countTokens_total tiktoken (cur ++ piece) w) as (w1 & Hcount).
  unfold bind. rewrite Hcount.
  destruct (estimate tiktoken (cur ++ piece) >? Fused.budget); eexists; eexists; reflexivity.
Qed.

Lemma add_pieces_total tiktoken pieces :
  forall st w, exists st' w', Fused.add_pieces tiktoken pieces st w = (Ok st', w').
Proof.
  induction pieces as [|piece rest IH]; intros st w.
  - eexists; eexists; reflexivity.
  - cbn [Fused.add_pieces]. unfold bind.
    destruct (add_piece_total tiktoken piece st w) as (st1 & w1 & Hone).
    rewrite Hone. apply IH.
Qed.

Lemma first_failure_dir extensions p items :
  first_failure extensions (DirNode p (Ok items)) = first_failure_all extensions items.
Proof.
  induction items as [|it rest IH]; [reflexivity|].
  cbn [first_failure first_failure_all].
  destruct (first_failure extensions it); [reflexivity|exact IH].
Qed.

Section FusedOutcome.

Variable tiktoken : option Fused.Tiktoken.
Variable extensions : list string.

Lemma visit_all_outcome items :
  Forall (visit_outcome tiktoken extensions) items ->
  forall st w,
    match first_failure_all extensions items with
    | Some e => exists w', Fused.visit_all tiktoken extensions items st w = (Throw e, w')
    | None => exists st' w', Fused.visit_all tiktoken extensions items st w = (Ok st', w')
    end.
Proof.
  induction 1 as [|it rest Hit Hrest IH]; intros st w.
  - eexists; eexists; reflexivity.
  - cbn [first_failure_all Fused.visit_all]. unfold bind.
    specialize (Hit st w).
    destruct (first_failure extensions it) as [e|].
    + destruct Hit as (w' & Hvisit). rewrite Hvisit. eexists; reflexivity.
    + destruct Hit as (st1 & w1 & Hvisit). rewrite Hvisit. apply IH.
Qed.

Lemma fetch_outcome items :
  Forall (visit_outcome tiktoken extensions) items ->
  forall w,
    match first_failure_all extensions items with
    | Some e =>
        exists w', Fused.fetchAllRepoContents tiktoken extensions (Ok items) w = (Throw e, w')
    | None =>
        exists chunks w',
          Fused.fetchAllRepoContents tiktoken extensions (Ok items) w = (Ok chunks, w')
    end.
Proof.
  intros Hitems w. unfold Fused.fetchAllRepoContents, bind, await.
  pose proof (visit_all_outcome items Hitems ([], "") w) as Hall.
  destruct (first_failure_all extensions items) as [e|].
  - destruct Hall as (w' & Hall). rewrite Hall. eexists; reflexivity.
  - destruct Hall as (st & w' & Hall). rewrite Hall. eexists; eexists; reflexivity.
Qed.

Lemma visit_outcome_all item : visit_outcome tiktoken extensions item.
Proof.
  induction item as [p download|p err|p items IH|type p] using node_induction;
    intros st w.
  - destruct download as [[c|e]|]; cbn [first_failure Fused.visit].
    + destruct (has_extension extensions p); [|eexists; eexists; reflexivity].
      unfold bind, await.
      destruct (strlen c >? size_ceiling).
      * eexists; eexists; reflexivity.
      * apply add_piece_total.
    + destruct (has_extension extensions p); [|eexists; eexists; reflexivity].
      eexists; reflexivity.
    + eexists; eexists; reflexivity.
  - cbn [first_failure]. rewrite visit_dir. eexists; reflexivity.
  - rewrite first_failure_dir, visit_dir. unfold bind.
    pose proof (fetch_outcome items IH w) as Hfetch.
    destruct (first_failure_all extensions items) as [e|].
    + destruct Hfetch as (w' & Hfetch). rewrite Hfetch. eexists; reflexivity.
    + destruct Hfetch as (dirChunks & w' & Hfetch). rewrite Hfetch.
      apply add_pieces_total.
  - eexists; eexists; reflexivity.
Qed.

End FusedOutcome.

(** X11. The fused walker of part_002 has no tolerance for failures: the
    failure of the listing it is called on, of the listing of any directory
    below, or of the download of any file with an accepted extension ends
    the whole fetch with the error of the first such failure in the order
    of the walk; when no request fails, the fetch returns its chunks. *)
Theorem fused_fetch_outcome tiktoken extensions items w :
  (forall e, Fused.fetchAllRepoContents tiktoken extensions (Throw e) w = (Throw e, w))
  /\ match first_failure_all extensions items with
     | Some e =>
         fst (Fused.fetchAllRepoContents tiktoken extensions (Ok items) w) = Throw e
     | None =>
         exists chunks,
           fst (Fused.fetchAllRepoContents tiktoken extensions (Ok items) w) = Ok chunks
     end.
Proof.
  split; [reflexivity|].
  assert (Hitems : Forall (visit_outcome tiktoken extensions) items).
  { apply Forall_forall. intros item _. apply visit_outcome_all. }
  pose proof (fetch_outcome tiktoken extensions items Hitems w) as Hfetch.
  destruct (first_failure_all extensions items) as [e|].
  - destruct Hfetch as (w' & Hfetch). rewrite Hfetch. reflexivity.
  - destruct Hfetch as (chunks & w' & Hfetch). exists chunks. rewrite Hfetch. reflexivity.
Qed.

(** A failure two directories down ends the fetch of the root. *)
Example fused_fetch_deep_failure :
  fst (Fused.fetchAllRepoContents None default_extensions
         (Ok [ FileNode "a.js" (Some (Ok "fetched"));
               DirNode "lib" (Ok [DirNode "lib/sub" (Throw network_error)]) ])
         initial_world) = Throw network_error.
Proof. reflexivity. Qed.

(** ** The fused walker: when every block fits *)

Section FusedFitting.

Variable tiktoken : option Fused.Tiktoken.
Variable extensions : list string.

Lemma add_piece_fitting piece st w st' w' :
  fitting_acc tiktoken st -> fitting tiktoken piece ->
  Fused.add_piece tiktoken piece st w = (Ok st', w') ->
  fitting_acc tiktoken st'.
Proof.
  destruct st as [chunks cur]. intros [Hchunks Hcur] [Hne Hfit] Hadd.
  simpl in Hchunks, Hcur. unfold Fused.add_piece in Hadd.
  destruct (countTokens_total tiktoken (cur ++ piece) w) as (w1 & Hcount).
  unfold bind in Hadd. rewrite Hcount in Hadd.
  destruct (estimate tiktoken (cur ++ piece) >? Fused.budget) eqn:Hgt;
    apply ret_Ok_inv in Hadd as [<- _]; split; simpl.
  - apply Forall_app. split; [exact Hchunks|]. constructor; [|constructor].
    destruct Hcur as [->|Hcur]; [|exact Hcur].
    apply Z.gtb_lt in Hgt. cbn [append] in Hgt. lia.
  - right. split; assumption.
  - exact Hchunks.
  - right. split.
    + destruct cur; [exact Hne|discriminate].
    + rewrite Z.gtb_ltb in Hgt. apply Z.ltb_ge in Hgt. exact Hgt.
Qed.

Lemma add_pieces_fitting pieces :
  Forall (fitting tiktoken) pieces ->
  forall st w st' w',
    fitting_acc tiktoken st ->
    Fused.add_pieces tiktoken pieces st w = (Ok st', w') ->
    fitting_acc tiktoken st'.
Proof.
  induction 1 as [|piece rest Hpiece Hrest IH]; intros st w st' w' Hst Hadd.
  - simpl in Hadd. apply ret_Ok_inv in Hadd as [<- _]. exact Hst.
  - cbn [Fused.add_pieces] in Hadd.
    apply bind_Ok_inv in Hadd as (st1 & w1 & Hone & Hmore).
    eapply IH; [|exact Hmore].
    eapply add_piece_fitting; eassumption.
Qed.

Lemma flush_fitting st :
  fitting_acc tiktoken st -> Forall (fitting tiktoken) (Fused.flush st).
Proof.
  destruct st as [chunks cur]. intros [Hchunks Hcur]. simpl in Hchunks, Hcur.
  unfold Fused.flush. destruct cur as [|c cur]; cbn [truthy]; [exact Hchunks|].
  apply Forall_app. split; [exact Hchunks|]. constructor; [|constructor].
  destruct Hcur as [Hcur|Hcur]; [discriminate Hcur|exact Hcur].
Qed.

Lemma visit_all_fitting items :
  Forall (fun item =>
            forall st w st' w',
              Forall (fun r => estimate tiktoken (block r) <= Fused.budget)
                (walk extensions item) ->
              fitting_acc tiktoken st ->
              Fused.visit tiktoken extensions item st w = (Ok st', w') ->
              fitting_acc tiktoken st') items ->
  forall st w st' w',
    Forall (fun r => estimate tiktoken (block r) <= Fused.budget)
      (walk_all extensions items) ->
    fitting_acc tiktoken st ->
    Fused.visit_all tiktoken extensions items st w = (Ok st', w') ->
    fitting_acc tiktoken st'.
Proof.
  induction 1 as [|it rest Hit Hrest IH]; intros st w st' w' Hfit Hst Hall.
  - simpl in Hall. apply ret_Ok_inv in Hall as [<- _]. exact Hst.
  - cbn [Fused.visit_all] in Hall.
    apply bind_Ok_inv in Hall as (s1 & w1 & Hone & Hmore).
    unfold walk_all in Hfit. cbn [flat_map] in Hfit.
    apply Forall_app in Hfit as [Hfit_it Hfit_rest].
    eapply IH; [exact Hfit_rest| |exact Hmore].
    eapply Hit; eassumption.
Qed.

Lemma visit_fitting item :
  forall st w st' w',
    Forall (fun r => estimate tiktoken (block r) <= Fused.budget) (walk extensions item) ->
    fitting_acc tiktoken st ->
    Fused.visit tiktoken extensions item st w = (Ok st', w') ->
    fitting_acc tiktoken st'.
Proof.
  induction item as [p download|p err|p items IH|type p] using node_induction;
    intros st w st' w' Hfit Hst Hvisit.
  - destruct download as [[c|e]|]; cbn [Fused.visit walk] in *.
    + destruct (has_extension extensions p); cbn [andb] in Hfit;
        [|apply ret_Ok_inv in Hvisit as [<- _]; exact Hst].
      apply bind_Ok_inv in Hvisit as (fileContent & w1 & Hget & Hk).
      unfold await in Hget. inversion Hget; subst fileContent w1.
      rewrite Z.gtb_ltb in Hk. rewrite Z.leb_antisym in Hfit.
      destruct (size_ceiling <? strlen c); cbn [negb] in Hfit.
      * apply bind_Ok_inv in Hk as (u & w2 & _ & Hret).
        apply ret_Ok_inv in Hret as [<- _]. exact Hst.
      * eapply add_piece_fitting; [exact Hst| |exact Hk].
        inversion Hfit as [|? ? Hblock _]; subst.
        split; [discriminate|exact Hblock].
    + destruct (has_extension extensions p);
        [|apply ret_Ok_inv in Hvisit as [<- _]; exact Hst].
      apply bind_Ok_inv in Hvisit as (fileContent & w1 & Hget & _).
      unfold await in Hget. discriminate Hget.
    + apply ret_Ok_inv in Hvisit as [<- _]. exact Hst.
  - rewrite visit_dir in Hvisit.
    apply bind_Ok_inv in Hvisit as (dirChunks & w1 & Hfetch & _).
    unfold Fused.fetchAllRepoContents in Hfetch.
    apply bind_Ok_inv in Hfetch as (x & w2 & Hget & _).
    unfold await in Hget. discriminate Hget.
  - rewrite visit_dir in Hvisit.
    apply bind_Ok_inv in Hvisit as (dirChunks & w1 & Hfetch & Hadd).
    unfold Fused.fetchAllRepoContents in Hfetch.
    apply bind_Ok_inv in Hfetch as (items' & w2 & Hget & Hfetch).
    unfold await in Hget. inversion Hget; subst items' w2.
    apply bind_Ok_inv in Hfetch as (std & w3 & Hall & Hret).
    apply ret_Ok_inv in Hret as [<- _].
    cbn [walk] in Hfit. fold (walk_all extensions items) in Hfit.
    eapply add_pieces_fitting; [|exact Hst|exact Hadd].
    apply flush_fitting.
    eapply (visit_all_fitting items IH); [exact Hfit| |exact Hall].
    split; [constructor|left; reflexivity].
  - cbn [Fused.visit] in Hvisit. apply ret_Ok_inv in Hvisit as [<- _]. exact Hst.
Qed.

End FusedFitting.

(** X12. When the formatted block of every retained file is within the
    budget of 25,000 tokens, every chunk of a successful fetch of the fused
    walker is non-empty and within the budget. *)
Theorem fused_chunks_fit tiktoken extensions items w chunks w' :
  Forall (fun r => estimate tiktoken (block r) <= Fused.budget)
    (walk_all extensions items) ->
  Fused.fetchAllRepoContents tiktoken extensions (Ok items) w = (Ok chunks, w') ->
  Forall (fun chunk => chunk <> "" /\ estimate tiktoken chunk <= Fused.budget) chunks.
Proof.
  intros Hfit Hfetch. unfold Fused.fetchAllRepoContents in Hfetch.
  apply bind_Ok_inv in Hfetch as (items' & w1 & Hget & Hfetch).
  unfold await in Hget. inversion Hget; subst items' w1.
  apply bind_Ok_inv in Hfetch as (st & w2 & Hall & Hret).
  apply ret_Ok_inv in Hret as [<- _].
  apply (flush_fitting tiktoken).
  eapply (visit_all_fitting tiktoken extensions items); [|exact Hfit| |exact Hall].
  - apply Forall_forall. intros item _. apply visit_fitting.
  - split; [constructor|left; reflexivity].
Qed.

Lemma fused_chunks_fit_witness :
  Forall (fun chunk => chunk <> "" /\ estimate None chunk <= Fused.budget)
    [fileText "a.py" (replicate 50 "a") ++ fileText "lib/c.js" (replicate 80 "c")].
Proof.
  apply (fused_chunks_fit None default_extensions scenario_items initial_world
           _ initial_world).
  - cbn. repeat constructor; vm_compute; discriminate.
  - reflexivity.
Defined.

(** ** The worker of server.js: pages and outcome *)

(** X13. The worker stops at the first empty page of its listing: the
    pages that follow it are never asked for, whatever they hold. *)
Theorem worker_stops_at_empty_page workerPath extensions before after w :
  Server.fetchDirContents workerPath extensions (before ++ Ok [] :: after) w
  = Server.fetchDirContents workerPath extensions before w.
Proof.
  unfold Server.fetchDirContents. apply bind_ext. clear w.
  generalize (@nil string) as contents.
  induction before as [|response later IH]; intros contents w; [reflexivity|].
  cbn [app Server.worker_pages]. unfold bind, await.
  destruct response as [[|item items]|e]; [reflexivity| |reflexivity].
  destruct (Server.worker_items workerPath extensions (item :: items) contents w)
    as [[contents'|e] w']; [apply IH|reflexivity].
Qed.

Lemma direct_records_cons extensions item rest :
  direct_records extensions (item :: rest)
  = ((match item with FileNode _ _ => walk extensions item | _ => [] end)
     ++ direct_records extensions rest)%list.
Proof. reflexivity. Qed.

(** ** The coordinator of server.js: outcomes *)

Lemma root_items_outcome extensions rootItems :
  forall text w,
    match direct_failure extensions rootItems with
    | Some e =>
        exists w',
          Server.root_items extensions rootItems (Server.mkStream text false false) w
          = (Throw e, w')
    | None =>
        exists w',
          Server.root_items extensions rootItems (Server.mkStream text false false) w
          = (Ok (Server.mkStream
                   (text ++ group_text (direct_records extensions rootItems))
                   false false), w')
    end.
Proof.
  induction rootItems as [|item rest IH]; intros text w.
  - cbn. rewrite append_nil_r. eexists; reflexivity.
  - rewrite direct_records_cons, group_text_app.
    destruct item as [p [[c|e]|]|p listing|type p];
      cbn [direct_failure Server.root_items walk].
    + destruct (has_extension extensions p); cbn [andb].
      * unfold bind, await. rewrite Z.gtb_ltb, Z.leb_antisym.
        destruct (size_ceiling <? strlen c); cbn [negb].
        -- unfold console_warn, console_write. apply IH.
        -- unfold Server.stream_write. cbn [Server.ended Server.written Server.write_after_end].
           specialize (IH (text ++ fileText p c) w).
           destruct (direct_failure extensions rest); [exact IH|].
           destruct IH as (w' & IH). exists w'. rewrite IH.
           rewrite group_text_one, append_assoc. reflexivity.
      * apply IH.
    + destruct (has_extension extensions p).
      * unfold bind, await. eexists; reflexivity.
      * apply IH.
    + apply IH.
    + apply IH.
    + apply IH.
Qed.

(** X15. For a repository without a directory at its root, no worker is
    waited for: whatever events are given, [fetchAllRepoContents] throws the
    error of the first root-level download that fails, and otherwise
    completes with a file that holds exactly the formatted blocks of the
    retained root-level files, in listing order. *)
Theorem flat_repository_outcome extensions rootItems events w :
  filter is_dir rootItems = [] ->
  fst (Server.fetchAllRepoContents extensions (Ok rootItems) events w)
  = match direct_failure extensions rootItems with
    | Some e => Throw e
    | None => Ok (Server.Finished (group_text (direct_records extensions rootItems)))
    end.
Proof.
  intros Hflat. unfold Server.fetchAllRepoContents.
  unfold bind at 1. unfold await. unfold bind at 1.
  pose proof (root_items_outcome extensions rootItems "" w) as Hroot.
  destruct (direct_failure extensions rootItems) as [e|];
    destruct Hroot as (w' & Hroot); rewrite Hroot; [reflexivity|].
  rewrite Hflat. reflexivity.
Qed.

Lemma flat_repository_outcome_witness :
  fst (Server.fetchAllRepoContents default_extensions
         (Ok [ FileNode "a.py" (Some (Ok "print(1)"));
               FileNode "b.txt" (Some (Ok "notes"));
               FileNode "c.md" (Some (Ok "# Title")) ])
         [Server.OnExit 0] initial_world)
  = Ok (Server.Finished (fileText "a.py" "print(1)" ++ fileText "c.md" "# Title")).
Proof.
  apply (flat_repository_outcome default_extensions
           [ FileNode "a.py" (Some (Ok "print(1)"));
             FileNode "b.txt" (Some (Ok "notes"));
             FileNode "c.md" (Some (Ok "# Title")) ]
           [Server.OnExit 0] initial_world).
  reflexivity.
Defined.

(** X16. An uncaught error of a worker is fatal to the whole fetch: when
    the root-level files have been written and a worker raises an [error]
    event, [fetchAllRepoContents] throws the first such error, whatever the
    other workers post. *)
Theorem worker_error_rejects extensions rootItems events out w w1 err :
  Server.root_items extensions rootItems (Server.mkStream "" false false) w
    = (Ok out, w1) ->
  first_error (List.length (filter is_dir rootItems)) events = Some err ->
  fst (Server.fetchAllRepoContents extensions (Ok rootItems) events w) = Throw err.
Proof.
  intros Hroot Herr. unfold Server.fetchAllRepoContents.
  unfold bind at 1. unfold await. unfold bind at 1. rewrite Hroot.
  set (directories := filter is_dir rootItems) in *.
  destruct (Nat.eqb_spec (List.length directories) 0) as [Hzero|_].
  { rewrite Hzero in Herr. exfalso. clear - Herr.
    induction events as [|[i data|i|i e] later IH]; cbn in Herr;
      [discriminate|auto|auto|auto]. }
  unfold bind.
  destruct (handle_all_invariant directories events
              (Server.mkCoordinator out 0 [] None) w1)
    as (st' & w' & Hrun & Hrej & _).
  rewrite Hrun. cbn [Server.rejected] in Hrej. rewrite Hrej, Herr. reflexivity.
Qed.

Lemma worker_error_rejects_witness :
  fst (Server.fetchAllRepoContents default_extensions (Ok three_dirs)
         [ Server.OnMessage 0 (Server.DataString "<zero>"); Server.OnExit 0;
           Server.OnError 1 network_error; Server.OnExit 1; Server.OnExit 2 ]
         initial_world) = Throw network_error.
Proof.
  apply (worker_error_rejects default_extensions three_dirs _
           (Server.mkStream (fileText "a.js" "root") false false)
           initial_world initial_world network_error); reflexivity.
Defined.

(** X17. The coordinator does not complete before every worker has
    ended: when the root-level files have been written, there is at least
    one directory, no worker raises an uncaught error and fewer exits than
    workers have been seen, the call of [fetchAllRepoContents] is still
    pending. *)
Theorem fetch_pending_until_all_exit extensions rootItems events out w w1 :
  Server.root_items extensions rootItems (Server.mkStream "" false false) w
    = (Ok out, w1) ->
  first_error (List.length (filter is_dir rootItems)) events = None ->
  (List.length (exits events) < List.length (filter is_dir rootItems))%nat ->
  fst (Server.fetchAllRepoContents extensions (Ok rootItems) events w)
  = Ok Server.Pending.
Proof.
  intros Hroot Herr Hexits. unfold Server.fetchAllRepoContents.
  unfold bind at 1. unfold await. unfold bind at 1. rewrite Hroot.
  destruct (root_items_open _ _ _ _ _ _ Hroot eq_refl eq_refl) as [Hopen Hclean].
  set (directories := filter is_dir rootItems) in *.
  destruct (Nat.eqb_spec (List.length directories) 0) as [Hzero|_]; [lia|].
  unfold bind.
  destruct (handle_all_invariant directories events
              (Server.mkCoordinator out 0 [] None) w1)
    as (st' & w' & Hrun & Hrej & Hstay).
  rewrite Hrun. cbn [Server.rejected Server.sink Server.completedWorkers] in Hrej, Hstay.
  rewrite Hrej, Herr.
  destruct (Hstay Hopen Hclean ltac:(lia)) as [Hopen' Hclean'].
  rewrite Hclean'.
  destruct (Server.all_resolved (List.length directories) (Server.resolved st'));
    reflexivity.
Qed.

Lemma fetch_pending_until_all_exit_witness :
  fst (Server.fetchAllRepoContents default_extensions (Ok three_dirs)
         [ Server.OnMessage 0 (Server.DataString "<zero>"); Server.OnExit 0;
           Server.OnMessage 2 (Server.DataString "<two>"); Server.OnExit 2 ]
         initial_world) = Ok Server.Pending.
Proof.
  apply (fetch_pending_until_all_exit default_extensions three_dirs _
           (Server.mkStream (fileText "a.js" "root") false false)
           initial_world initial_world).
  - reflexivity.
  - reflexivity.
  - vm_compute. lia.
Defined.

(** ** The request handler: the repository URL *)

Lemma non_slash_run_spec s :
  forall run rest,
    Handler.non_slash_run s = (run, rest) ->
    s = run ++ rest /\ has_char "/" run = false
    /\ (rest = "" \/ exists r, rest = String "/" r).
Proof.
  induction s as [|c s IH]; intros run rest Hrun.
  - simpl in Hrun. inversion Hrun; subst. repeat split. left. reflexivity.
  - cbn [Handler.non_slash_run] in Hrun.
    destruct (Ascii.eqb_spec c "/") as [->|Hne].
    + inversion Hrun; subst. repeat split. right. eexists; reflexivity.
    + destruct (Handler.non_slash_run s) as [run' rest'] eqn:Hs.
      inversion Hrun; subst.
      destruct (IH run' rest eq_refl) as (Heq & Hno & Hrest).
      repeat split.
      * cbn [append]. rewrite <- Heq. reflexivity.
      * cbn [has_char]. rewrite Hno.
        destruct (Ascii.eqb_spec c "/"); [contradiction|reflexivity].
      * exact Hrest.
Qed.

Lemma non_slash_run_app run rest :
  has_char "/" run = false ->
  rest = "" \/ (exists r, rest = String "/" r) ->
  Handler.non_slash_run (run ++ rest) = (run, rest).
Proof.
  intros Hno Hrest. induction run as [|c run IH].
  - cbn [append]. destruct Hrest as [->|(r & ->)]; reflexivity.
  - cbn [has_char] in Hno. apply orb_false_elim in Hno as [Hc Hno].
    cbn [append Handler.non_slash_run]. rewrite Hc, (IH Hno). reflexivity.
Qed.

Lemma after_prefix_app p s : Handler.after_prefix p (p ++ s) = Some s.
Proof.
  induction p as [|a p IH]; [reflexivity|].
  cbn [append Handler.after_prefix]. rewrite Ascii.eqb_refl. exact IH.
Qed.

Lemma after_prefix_spec p :
  forall s r, Handler.after_prefix p s = Some r -> s = p ++ r.
Proof.
  induction p as [|a p IH]; intros s r H.
  - simpl in H. inversion H. reflexivity.
  - destruct s as [|b s]; [discriminate H|].
    cbn [Handler.after_prefix] in H.
    destruct (Ascii.eqb_spec a b) as [->|]; [|discriminate H].
    cbn [append]. rewrite (IH s r H). reflexivity.
Qed.

Lemma after_prefix_prefix p :
  forall s r, Handler.after_prefix p s = Some r -> prefix p s = true.
Proof.
  induction p as [|a p IH]; intros s r H; [destruct s; reflexivity|].
  destruct s as [|b s]; [discriminate H|].
  cbn [Handler.after_prefix] in H. cbn [prefix].
  destruct (Ascii.eqb_spec a b) as [->|]; [|discriminate H].
  destruct (ascii_dec b b); [|congruence]. exact (IH s r H).
Qed.

Lemma match_here_spec s repoOwner repoName :
  Handler.match_here s = Some (repoOwner, repoName) ->
  repoOwner <> "" /\ repoName <> ""
  /\ has_char "/" repoOwner = false /\ has_char "/" repoName = false
  /\ exists rest, s = "github.com/" ++ repoOwner ++ "/" ++ repoName ++ rest.
Proof.
  unfold Handler.match_here. intros H.
  destruct (Handler.after_prefix "github.com/" s) as [s1|] eqn:Hprefix; [|discriminate H].
  apply after_prefix_spec in Hprefix.
  destruct (Handler.non_slash_run s1) as [owner s2] eqn:Howner.
  apply non_slash_run_spec in Howner as (Hs1 & Hno_owner & Hs2).
  destruct owner as [|c owner]; [discriminate H|].
  destruct s2 as [|c2 s3]; [discriminate H|].
  destruct (Handler.non_slash_run s3) as [name rest] eqn:Hname.
  apply non_slash_run_spec in Hname as (Hs3 & Hno_name & _).
  destruct name as [|c3 name]; [discriminate H|].
  inversion H; subst repoOwner repoName.
  destruct Hs2 as [Hs2|(r & Hs2)]; [discriminate Hs2|].
  inversion Hs2; subst c2 r.
  repeat split; try discriminate; try assumption.
  exists rest. rewrite Hprefix, Hs1, Hs3. reflexivity.
Qed.

Lemma match_here_no_prefix s :
  prefix "github.com/" s = false -> Handler.match_here s = None.
Proof.
  intros Hno. unfold Handler.match_here.
  destruct (Handler.after_prefix "github.com/" s) as [s1|] eqn:Hprefix; [|reflexivity].
  apply after_prefix_prefix in Hprefix. congruence.
Qed.

Lemma match_repo_url_none repoUrl :
  includes repoUrl "github.com/" = false -> Handler.match_repo_url repoUrl = None.
Proof.
  induction repoUrl as [|c rest IH]; intros Hno.
  - reflexivity.
  - cbn [includes] in Hno. apply orb_false_elim in Hno as [Hhere Hrest].
    cbn [Handler.match_repo_url].
    rewrite (match_here_no_prefix _ Hhere). exact (IH Hrest).
Qed.

Lemma match_repo_url_here s groups :
  Handler.match_here s = Some groups -> Handler.match_repo_url s = Some groups.
Proof.
  intros H. destruct s; cbn [Handler.match_repo_url]; rewrite H; reflexivity.
Qed.

(** X18. The two groups that the handler takes from a repository URL
    are the owner and the name that follow the leftmost [github.com/]: for
    a URL made of a prefix without the letter g (such as https://),
    [github.com/], an owner, a slash, a name and then nothing or a further
    path, where owner and name are non-empty and hold no slash, the match
    gives that owner and that name. *)
Theorem match_repo_url_extracts pre repoOwner repoName rest :
  has_char "g" pre = false ->
  repoOwner <> "" -> repoName <> "" ->
  has_char "/" repoOwner = false -> has_char "/" repoName = false ->
  rest = "" \/ (exists r, rest = String "/" r) ->
  Handler.match_repo_url
    (pre ++ "github.com/" ++ repoOwner ++ "/" ++ repoName ++ rest)
  = Some (repoOwner, repoName).
Proof.
  intros Hpre Howner Hname Hno_owner Hno_name Hrest.
  set (tail := "github.com/" ++ repoOwner ++ "/" ++ repoName ++ rest).
  assert (Hhere : Handler.match_here tail = Some (repoOwner, repoName)).
  { unfold tail, Handler.match_here. rewrite after_prefix_app.
    rewrite (non_slash_run_app repoOwner ("/" ++ repoName ++ rest) Hno_owner)
      by (right; eexists; reflexivity).
    destruct repoOwner as [|o repoOwner]; [congruence|].
    cbn [append].
    rewrite (non_slash_run_app repoName rest Hno_name Hrest).
    destruct repoName as [|n repoName]; [congruence|reflexivity]. }
  clearbody tail.
  induction pre as [|c pre IH].
  - cbn [append]. apply match_repo_url_here. exact Hhere.
  - cbn [has_char] in Hpre. apply orb_false_elim in Hpre as [Hc Hpre].
    cbn [append Handler.match_repo_url].
    assert (Hnone : Handler.match_here (String c (pre ++ tail)) = None).
    { unfold Handler.match_here. cbn [Handler.after_prefix].
      rewrite Ascii.eqb_sym, Hc. reflexivity. }
    rewrite Hnone. exact (IH Hpre).
Qed.

Lemma match_repo_url_extracts_witness :
  Handler.match_repo_url
    ("https://" ++ "github.com/" ++ "vuejs" ++ "/" ++ "vue" ++ "/tree/main")
  = Some ("vuejs", "vue").
Proof.
  apply (match_repo_url_extracts "https://" "vuejs" "vue" "/tree/main");
    try reflexivity; try discriminate.
  right. eexists. reflexivity.
Defined.

(** A trailing [.git] stays in the name; an owner alone does not match. *)
Example match_repo_url_keeps_suffix :
  Handler.match_repo_url "https://github.com/user/repo.git" = Some ("user", "repo.git")
  /\ Handler.match_repo_url "github.com/user" = None
  /\ Handler.match_repo_url "https://github.com//repo" = None.
Proof. repeat split. Qed.

(** X19. Every match of a repository URL gives a non-empty owner and a
    non-empty name without slash, and the URL does contain [github.com/],
    the owner, a slash and the name, in this order. *)
Theorem match_repo_url_sound repoUrl repoOwner repoName :
  Handler.match_repo_url repoUrl = Some (repoOwner, repoName) ->
  repoOwner <> "" /\ repoName <> ""
  /\ has_char "/" repoOwner = false /\ has_char "/" repoName = false
  /\ exists pre rest,
       repoUrl = pre ++ "github.com/" ++ repoOwner ++ "/" ++ repoName ++ rest.
Proof.
  induction repoUrl as [|c url IH]; intros Hmatch.
  - discriminate Hmatch.
  - cbn [Handler.match_repo_url] in Hmatch.
    destruct (Handler.match_here (String c url)) as [[o n]|] eqn:Hhere.
    + inversion Hmatch; subst o n.
      apply match_here_spec in Hhere as (H1 & H2 & H3 & H4 & rest & Heq).
      repeat split; try assumption.
      exists "", rest. exact Heq.
    + destruct (IH Hmatch) as (H1 & H2 & H3 & H4 & pre & rest & Heq).
      repeat split; try assumption.
      exists (String c pre), rest. cbn [append]. rewrite Heq. reflexivity.
Qed.

Lemma match_repo_url_sound_witness :
  "user" <> "" /\ "repo.git" <> ""
  /\ has_char "/" "user" = false /\ has_char "/" "repo.git" = false
  /\ exists pre rest,
       "https://github.com/user/repo.git"
       = pre ++ "github.com/" ++ "user" ++ "/" ++ "repo.git" ++ rest.
Proof.
  apply (match_repo_url_sound "https://github.com/user/repo.git" "user" "repo.git").
  reflexivity.
Defined.

(** ** The request handler: answers *)

(** X20. A request without a repository URL, or with an empty one, is
    answered 400 (URL required), and a URL that does not contain
    [github.com/] is answered 400 (invalid URL); in all three cases nothing
    is fetched, no generation request is made and nothing is written to the
    console. *)
Theorem handler_rejects_bad_url github events openai publish w :
  Handler.generate_docs_handler Handler.Absent github events openai publish w
    = (Ok (Handler.Status 400 "Repository URL is required"), w)
  /\ Handler.generate_docs_handler (Handler.Text "") github events openai publish w
     = (Ok (Handler.Status 400 "Repository URL is required"), w)
  /\ (forall url,
        url <> "" -> includes url "github.com/" = false ->
        Handler.generate_docs_handler (Handler.Text url) github events openai publish w
        = (Ok (Handler.Status 400 "Invalid GitHub URL"), w)).
Proof.
  split; [reflexivity|]. split; [reflexivity|].
  intros url Hne Hno. unfold Handler.generate_docs_handler.
  destruct url as [|c url]; [congruence|]. cbn [truthy negb].
  rewrite (match_repo_url_none _ Hno). reflexivity.
Qed.

Lemma handler_rejects_bad_url_witness :
  Handler.generate_docs_handler (Handler.Text "https://gitlab.com/user/repo")
    (fun _ _ => Ok scenario_items) [] echo publish_ok initial_world
  = (Ok (Handler.Status 400 "Invalid GitHub URL"), initial_world).
Proof.
  destruct (handler_rejects_bad_url (fun _ _ => Ok scenario_items) [] echo publish_ok
              initial_world) as (_ & _ & H).
  apply H; [discriminate|reflexivity].
Defined.

(** X21. The [try] of the handler starts after the tests on the URL.
    A [repoUrl] that is truthy and not a string has no method [match]: the
    [TypeError] leaves the handler, before anything is fetched or written.
    For every other body no exception leaves the handler: it gives an
    answer (or none, when the fetch stays pending).  In particular, when
    the listing of the root of the repository fails, the answer is 500 with
    the fixed message, and the message of the error is written to the
    console. *)
Theorem handler_catches_failures repoUrl github events openai publish w :
  (repoUrl = Handler.NotText true ->
   Handler.generate_docs_handler repoUrl github events openai publish w
   = (Throw Handler.match_type_error, w))
  /\ (repoUrl <> Handler.NotText true ->
      exists answer w',
        Handler.generate_docs_handler repoUrl github events openai publish w
        = (Ok answer, w'))
  /\ (forall url repoOwner repoName e,
        repoUrl = Handler.Text url ->
        Handler.match_repo_url url = Some (repoOwner, repoName) ->
        github repoOwner repoName = Throw e ->
        Handler.generate_docs_handler repoUrl github events openai publish w
        = (Ok (Handler.Status 500 "Failed to generate documentation"),
           logged LError ("Error: " ++ message e) w)).
Proof.
  split; [intros ->; reflexivity|]. split.
  - intros Hstring. unfold Handler.generate_docs_handler.
    destruct repoUrl as [|url|[|]];
      [eexists; eexists; reflexivity| |congruence|eexists; eexists; reflexivity].
    destruct (negb (truthy url)); [eexists; eexists; reflexivity|].
    destruct (Handler.match_repo_url url) as [[repoOwner repoName]|];
      [|eexists; eexists; reflexivity].
    unfold try_catch.
    match goal with
    | |- context [match ?body w with _ => _ end] => destruct (body w) as [[answer|e] w']
    end; eexists; eexists; reflexivity.
  - intros url repoOwner repoName e -> Hmatch Hfail.
    unfold Handler.generate_docs_handler.
    destruct url as [|c url]; [discriminate Hmatch|]. cbn [truthy negb].
    rewrite Hmatch. unfold try_catch, Server.fetchAllRepoContents.
    rewrite Hfail. reflexivity.
Qed.

Lemma handler_catches_failures_witness :
  Handler.generate_docs_handler (Handler.NotText true)
    (fun _ _ => Ok scenario_items) [] echo publish_ok initial_world
  = (Throw Handler.match_type_error, initial_world)
  /\ (exists answer w',
        Handler.generate_docs_handler (Handler.NotText false)
          (fun _ _ => Ok scenario_items) [] echo publish_ok initial_world
        = (Ok answer, w'))
  /\ Handler.generate_docs_handler (Handler.Text "https://github.com/user/private")
       (fun _ _ => Throw (mkError "Request failed with status code 404" (Some 404)))
       [] echo publish_ok initial_world
     = (Ok (Handler.Status 500 "Failed to generate documentation"),
        logged LError "Error: Request failed with status code 404" initial_world).
Proof.
  split; [|split].
  - destruct (handler_catches_failures (Handler.NotText true)
                (fun _ _ => Ok scenario_items) [] echo publish_ok initial_world)
      as (H & _).
    exact (H eq_refl).
  - destruct (handler_catches_failures (Handler.NotText false)
                (fun _ _ => Ok scenario_items) [] echo publish_ok initial_world)
      as (_ & H & _).
    apply H. discriminate.
  - destruct (handler_catches_failures (Handler.Text "https://github.com/user/private")
                (fun _ _ => Throw (mkError "Request failed with status code 404" (Some 404)))
                [] echo publish_ok initial_world) as (_ & _ & H).
    exact (H "https://github.com/user/private" "user" "private"
             (mkError "Request failed with status code 404" (Some 404))
             eq_refl eq_refl eq_refl).
Defined.

Lemma root_items_calls extensions rootItems :
  forall out w,
    api_calls (snd (Server.root_items extensions rootItems out w)) = api_calls w
    /\ slept (snd (Server.root_items extensions rootItems out w)) = slept w.
Proof.
  induction rootItems as [|item rest IH]; intros out w; [split; reflexivity|].
  cbn [Server.root_items].
  destruct item as [p [get|]|p listing|type p]; try apply IH.
  destruct (has_extension extensions p); [|apply IH].
  unfold bind, await. destruct get as [fileContent|e]; [|split; reflexivity].
  destruct (strlen fileContent >? size_ceiling).
  - unfold console_warn, console_write.
    match goal with
    | |- context [Server.root_items _ _ ?o ?w0] => destruct (IH o w0) as [H1 H2]
    end.
    rewrite H1, H2. split; reflexivity.
  - apply IH.
Qed.

(** The fetch of a repository without directory at its root, when no
    download fails. *)
Lemma flat_fetch extensions rootItems events w :
  filter is_dir rootItems = [] ->
  direct_failure extensions rootItems = None ->
  exists w',
    Server.fetchAllRepoContents extensions (Ok rootItems) events w
    = (Ok (Server.Finished (group_text (direct_records extensions rootItems))), w')
    /\ api_calls w' = api_calls w /\ slept w' = slept w.
Proof.
  intros Hflat Hfine. unfold Server.fetchAllRepoContents.
  unfold bind at 1. unfold await. unfold bind at 1.
  pose proof (root_items_outcome extensions rootItems "" w) as Hroot.
  pose proof (root_items_calls extensions rootItems (Server.mkStream "" false false) w)
    as [Hcalls Hwaits].
  rewrite Hfine in Hroot. destruct Hroot as (w' & Hroot).
  rewrite Hroot in Hcalls, Hwaits. cbn [snd] in Hcalls, Hwaits.
  rewrite Hroot, Hflat. exists w'. repeat split; assumption.
Qed.

(** X22. When a repository has no directory at its root and none of its
    root-level files is retained, the handler answers 400 (no relevant
    source code) without any generation request. *)
Theorem handler_empty_corpus url repoOwner repoName github rootItems events openai
    publish w :
  Handler.match_repo_url url = Some (repoOwner, repoName) ->
  github repoOwner repoName = Ok rootItems ->
  filter is_dir rootItems = [] ->
  direct_failure default_extensions rootItems = None ->
  direct_records default_extensions rootItems = [] ->
  fst (Handler.generate_docs_handler (Handler.Text url) github events openai publish w)
    = Ok (Handler.Status 400
            "No relevant source code found (e.g., .js, .py, .ts, .md files)")
  /\ api_calls (snd (Handler.generate_docs_handler (Handler.Text url) github events openai
                       publish w)) = api_calls w.
Proof.
  intros Hmatch Hroot Hflat Hfine Hnone.
  unfold Handler.generate_docs_handler.
  destruct url as [|c url]; [discriminate Hmatch|]. cbn [truthy negb].
  rewrite Hmatch, Hroot. unfold try_catch, bind.
  destruct (flat_fetch default_extensions rootItems events w Hflat Hfine)
    as (w' & Hfetch & Hcalls & _).
  rewrite Hfetch, Hnone. cbn. split; [reflexivity|exact Hcalls].
Qed.

Lemma handler_empty_corpus_witness :
  fst (Handler.generate_docs_handler (Handler.Text "https://github.com/user/notes")
         (fun _ _ => Ok [ FileNode "b.txt" (Some (Ok "notes"));
                          FileNode "LICENSE" None ])
         [] echo publish_ok initial_world)
    = Ok (Handler.Status 400
            "No relevant source code found (e.g., .js, .py, .ts, .md files)")
  /\ api_calls (snd (Handler.generate_docs_handler (Handler.Text "https://github.com/user/notes")
                       (fun _ _ => Ok [ FileNode "b.txt" (Some (Ok "notes"));
                                        FileNode "LICENSE" None ])
                       [] echo publish_ok initial_world)) = api_calls initial_world.
Proof.
  apply (handler_empty_corpus "https://github.com/user/notes" "user" "notes"
           (fun _ _ => Ok [ FileNode "b.txt" (Some (Ok "notes"));
                            FileNode "LICENSE" None ])
           [ FileNode "b.txt" (Some (Ok "notes")); FileNode "LICENSE" None ]
           [] echo publish_ok initial_world); reflexivity.
Defined.

Lemma generate_all_calls_exact openai f sourceCodeChunks w :
  (forall prompt n, openai prompt n = Ok (f prompt n)) ->
  fst (Server.generate_all openai sourceCodeChunks w)
  = Ok (answers f (List.length sourceCodeChunks) 0 (api_calls w) sourceCodeChunks)
  /\ api_calls (snd (Server.generate_all openai sourceCodeChunks w))
     = (api_calls w + List.length sourceCodeChunks)%nat.
Proof.
  intros Hanswers. unfold Server.generate_all.
  destruct (generate_from_answers openai f (List.length sourceCodeChunks)
              sourceCodeChunks Hanswers 0%nat [] w) as (H1 & H2 & _).
  split; assumption.
Qed.

Lemma generate_docs_answers openai f sourceCode w :
  truthy sourceCode = true ->
  (forall prompt n, openai prompt n = Ok (f prompt n)) ->
  exists rstParts w',
    Server.generate_docs openai sourceCode w = (Ok (Some rstParts), w')
    /\ api_calls w'
       = (api_calls w
          + List.length (Server.chunkSourceCode sourceCode Server.default_maxTokens))%nat.
Proof.
  intros Htruthy Hanswers. unfold Server.generate_docs. rewrite Htruthy. cbn [negb].
  unfold bind at 1. unfold console_log at 1. unfold console_write.
  unfold bind at 1. unfold console_log at 1. unfold console_write.
  cbn [console api_calls slept]. unfold bind.
  match goal with
  | |- context [Server.generate_all openai ?chunks ?w0] =>
      destruct (generate_all_calls_exact openai f chunks w0 Hanswers)
        as (Hparts & Hcalls);
      destruct (Server.generate_all openai chunks w0) as [r w2]
  end.
  cbn [fst snd api_calls] in Hparts, Hcalls. subst r.
  eexists; eexists. split; [reflexivity|exact Hcalls].
Qed.

(** X23. For a repository without a directory at its root whose
    root-level downloads all succeed and retain at least one file, a service
    that answers every request and a build that succeeds (whatever it
    writes to the console), the handler answers with the download link
    after exactly one generation request per chunk of the fetched text. *)
Theorem handler_flat_success url repoOwner repoName github rootItems events openai f
    publish link w :
  Handler.match_repo_url url = Some (repoOwner, repoName) ->
  github repoOwner repoName = Ok rootItems ->
  filter is_dir rootItems = [] ->
  direct_failure default_extensions rootItems = None ->
  direct_records default_extensions rootItems <> [] ->
  (forall prompt n, openai prompt n = Ok (f prompt n)) ->
  (forall docs w0,
      fst (publish docs w0) = Ok link
      /\ api_calls (snd (publish docs w0)) = api_calls w0) ->
  fst (Handler.generate_docs_handler (Handler.Text url) github events openai publish w)
    = Ok (Handler.Json link)
  /\ api_calls (snd (Handler.generate_docs_handler (Handler.Text url) github events openai
                       publish w))
     = (api_calls w
        + List.length
            (Server.chunkSourceCode
               (group_text (direct_records default_extensions rootItems))
               Server.default_maxTokens))%nat.
Proof.
  intros Hmatch Hroot Hflat Hfine Hsome Hanswers Hpublish.
  unfold Handler.generate_docs_handler.
  destruct url as [|c url]; [discriminate Hmatch|]. cbn [truthy negb].
  rewrite Hmatch, Hroot. unfold try_catch, bind.
  destruct (flat_fetch default_extensions rootItems events w Hflat Hfine)
    as (w1 & Hfetch & Hcalls & _).
  rewrite Hfetch.
  assert (Htruthy : truthy (group_text (direct_records default_extensions rootItems))
                    = true).
  { destruct (group_text (direct_records default_extensions rootItems)) eqn:Htext;
      [|reflexivity].
    apply group_text_empty in Htext. contradiction. }
  destruct (generate_docs_answers openai f _ w1 Htruthy Hanswers)
    as (rstParts & w2 & Hdocs & Hcount).
  rewrite Hdocs.
  destruct (Hpublish (join Handler.rst_separator rstParts) w2) as [Hlink Hsame].
  destruct (publish (join Handler.rst_separator rstParts) w2) as [r w3].
  cbn [fst snd] in Hlink, Hsame. subst r.
  unfold ret. cbn [fst snd]. split; [reflexivity|].
  rewrite Hsame, Hcount, Hcalls. reflexivity.
Qed.

Lemma handler_flat_success_witness :
  fst (Handler.generate_docs_handler (Handler.Text "https://github.com/user/repo")
         (fun _ _ => Ok [FileNode "a.py" (Some (Ok "print(1)"))])
         [] echo publish_logging initial_world)
    = Ok (Handler.Json "http://localhost:3000/downloads/docs.html")
  /\ api_calls (snd (Handler.generate_docs_handler
                       (Handler.Text "https://github.com/user/repo")
                       (fun _ _ => Ok [FileNode "a.py" (Some (Ok "print(1)"))])
                       [] echo publish_logging initial_world)) = 1%nat.
Proof.
  apply (handler_flat_success "https://github.com/user/repo" "user" "repo"
           (fun _ _ => Ok [FileNode "a.py" (Some (Ok "print(1)"))])
           [FileNode "a.py" (Some (Ok "print(1)"))]
           [] echo (fun prompt _ => "RST for " ++ prompt) publish_logging
           "http://localhost:3000/downloads/docs.html" initial_world);
    try reflexivity.
  - discriminate.
  - intros docs w0. split; reflexivity.
Defined.

(** ** The request handler: repositories with directories *)






(** ** The extension filter *)

Lemma length_append_nat a b :
  String.length (a ++ b) = (String.length a + String.length b)%nat.
Proof. induction a as [|c a IH]; [reflexivity|]. cbn. rewrite IH. reflexivity. Qed.

Lemma substring_whole s : substring 0 (String.length s) s = s.
Proof. induction s as [|c s IH]; [reflexivity|]. cbn. rewrite IH. reflexivity. Qed.

Lemma substring_after pre suffix :
  substring (String.length pre) (String.length suffix) (pre ++ suffix) = suffix.
Proof.
  induction pre as [|c pre IH]; [apply substring_whole|]. cbn. exact IH.
Qed.

Lemma substring_cut s :
  forall i, (i <= String.length s)%nat ->
            s = substring 0 i s ++ substring i (String.length s - i) s.
Proof.
  induction s as [|c s IH]; intros i Hi.
  - cbn in Hi. assert (i = 0%nat) by lia. subst i. reflexivity.
  - destruct i as [|i].
    + rewrite Nat.sub_0_r, substring_whole. reflexivity.
    + cbn [String.length] in Hi. cbn [substring String.length Nat.sub append].
      rewrite <- (IH i) by lia. reflexivity.
Qed.

Lemma endsWith_spec s suffix :
  endsWith s suffix = true <-> exists pre, s = pre ++ suffix.
Proof.
  unfold endsWith. split.
  - intros H.
    destruct (Nat.leb_spec (String.length suffix) (String.length s)) as [Hle|];
      [|discriminate H].
    apply String.eqb_eq in H.
    exists (substring 0 (String.length s - String.length suffix) s).
    pose proof (substring_cut s (String.length s - String.length suffix) ltac:(lia))
      as Hcut.
    replace (String.length s - (String.length s - String.length suffix))%nat
      with (String.length suffix) in Hcut by lia.
    rewrite H in Hcut. exact Hcut.
  - intros (pre & ->). rewrite length_append_nat.
    destruct (Nat.leb_spec (String.length suffix)
                (String.length pre + String.length suffix)) as [_|Hlt]; [|lia].
    replace (String.length pre + String.length suffix - String.length suffix)%nat
      with (String.length pre) by lia.
    rewrite substring_after. apply String.eqb_refl.
Qed.

(** X24. The extension filter is a plain test on the end of the path: a
    listed file is accepted exactly when its path is some text followed by
    one of the extensions. *)
Theorem has_extension_spec extensions p :
  has_extension extensions p = true
  <-> exists ext pre, In ext extensions /\ p = pre ++ ext.
Proof.
  unfold has_extension, some. rewrite existsb_exists. split.
  - intros (ext & Hin & Hends). apply endsWith_spec in Hends as (pre & Heq).
    exists ext, pre. split; assumption.
  - intros (ext & pre & Hin & Heq). exists ext. split; [exact Hin|].
    apply endsWith_spec. exists pre. exact Heq.
Qed.

(** A name that is only an extension is accepted; a backup of a source
    file is not. *)
Example has_extension_edge :
  has_extension default_extensions ".js" = true
  /\ has_extension default_extensions "src/app.js.bak" = false
  /\ has_extension default_extensions "docs/README.MD" = false.
Proof. repeat split. Qed.
